(** * Teleport: the caching auth client (package [state]) and the Ansible
    inventory formatter (package [ansible]).

    The Go code is embedded shallowly.  Every method of [CachingAuthClient]
    is a state transformer over the client record and the world outside it
    (the upstream access point and the wall clock).  Calls made to the
    upstream are recorded in a history so that "no upstream call was made"
    is a statement about the model. *)

From Stdlib Require Import ZArith Ascii String List Lia.
From stdpp Require Import gmap strings list fin_maps.

(** ** Package state *)

Module state.

Local Open Scope Z_scope.

(** *** time.Time and time.Duration

    Instants and durations are counted in nanoseconds; the zero [time.Time]
    (the value of an unset [lastErrorTime]) is instant 0. *)

Definition Time : Type := Z.
Definition Duration : Type := Z.

Definition Second : Duration := 1000000000.

(** [t.Add(d)] *)
Definition Time_Add (t : Time) (d : Duration) : Time := t + d.

(** [t.After(u)]: is [t] strictly later than [u]? *)
Definition Time_After (t u : Time) : bool := u <? t.

Definition backoffDuration : Duration := Second * 10.

(** *** What the client imports from package services, and Go's [error].

    None of these declarations belongs to the files modelled here; the
    development is parametric in them.  [NamespaceName ns] stands for
    [ns.Metadata.Name], [Wrap] for [trace.Wrap]. *)

Class Services : Type := {
  Namespace : Type;
  NamespaceName : Namespace -> string;
  Server : Type;
  User : Type;
  CertAuthority : Type;
  CertAuthType : Type;
  CertAuthType_eq_dec :: EqDecision CertAuthType;
  UserCA : CertAuthType;
  HostCA : CertAuthType;
  Err : Type;
  Wrap : Err -> Err
}.

(** A Go [error] value: [None] is [nil]. *)
Definition error `{Services} : Type := option Err.

(** *** auth.AccessPoint

    The interface the client both consumes and implements.  [Env] is
    everything outside the client: an operation of the upstream reads and
    changes it, and returns Go's pair of a value and an error. *)

Class AccessPoint `{Services} (Env : Type) : Type := {
  ap_GetDomainName : Env -> (string * error) * Env;
  ap_GetNamespaces : Env -> (list Namespace * error) * Env;
  ap_GetNodes : string -> Env -> (list Server * error) * Env;
  ap_GetProxies : Env -> (list Server * error) * Env;
  ap_GetUsers : Env -> (list User * error) * Env;
  ap_GetCertAuthorities :
    CertAuthType -> bool -> Env -> (list CertAuthority * error) * Env;
  ap_UpsertNode : Server -> Duration -> Env -> error * Env;
  ap_UpsertProxy : Server -> Duration -> Env -> error * Env
}.

(** [time.Now()] reads the clock of the environment. *)
Class Clock (Env : Type) : Type := { time_Now : Env -> Time }.

(** One entry of the history of calls made to the upstream: the operation,
    its arguments, and what it returned. *)
Inductive Event `{Services} : Type :=
| EvGetDomainName (r : string) (err : error)
| EvGetNamespaces (r : list Namespace) (err : error)
| EvGetNodes (namespace : string) (r : list Server) (err : error)
| EvGetProxies (r : list Server) (err : error)
| EvGetUsers (r : list User) (err : error)
| EvGetCertAuthorities (ct : CertAuthType) (loadKeys : bool)
    (r : list CertAuthority) (err : error)
| EvUpsertNode (s : Server) (ttl : Duration) (err : error)
| EvUpsertProxy (s : Server) (ttl : Duration) (err : error).

(** The error an upstream call ended with. *)
Definition Event_err `{Services} (ev : Event) : error :=
  match ev with
  | EvGetDomainName _ err | EvGetNamespaces _ err | EvGetNodes _ _ err
  | EvGetProxies _ err | EvGetUsers _ err | EvGetCertAuthorities _ _ _ err
  | EvUpsertNode _ _ err | EvUpsertProxy _ _ err => err
  end.

(** The world a method runs in: the environment, the history of upstream
    calls, and the warnings handed to the logger. *)
Record World `{Services} (Env : Type) : Type := mkWorld {
  env : Env;
  calls : list Event;
  warnings : list string
}.
Arguments mkWorld {_ _} _ _ _.
Arguments env {_ _} _.
Arguments calls {_ _} _.
Arguments warnings {_ _} _.

(** *** CachingAuthClient

    The struct without its mutex (the embedding is sequential) and without
    the [ap] pointer, which is the [AccessPoint] instance in scope. *)

Record CachingAuthClient `{Services} : Type := mkClient {
  lastErrorTime : Time;
  domainName : string;
  namespaces : list Namespace;
  nodes : gmap string (list Server);
  proxies : list Server;
  users : list User;
  userCAs : list CertAuthority;
  hostCAs : list CertAuthority
}.
Arguments mkClient {_} _ _ _ _ _ _ _ _.

(** *** The state a method body runs on

    [vars] holds the local variables of the method that its closure
    captures by reference (only [GetNodes] has any), [self] is the
    receiver [cs], [world] the world. *)

Record St `{Services} (Env L : Type) : Type := mkSt {
  vars : L;
  self : CachingAuthClient;
  world : World Env
}.
Arguments mkSt {_ _ _} _ _ _.
Arguments vars {_ _ _} _.
Arguments self {_ _ _} _.
Arguments world {_ _ _} _.

Section Client.
Context `{Services} {Env : Type} `{!AccessPoint Env} `{!Clock Env}.

(** Field assignments [cs.f = v]. *)
Definition set_lastErrorTime (t : Time) (cs : CachingAuthClient) :=
  mkClient t (domainName cs) (namespaces cs) (nodes cs) (proxies cs)
    (users cs) (userCAs cs) (hostCAs cs).
Definition set_domainName (v : string) (cs : CachingAuthClient) :=
  mkClient (lastErrorTime cs) v (namespaces cs) (nodes cs) (proxies cs)
    (users cs) (userCAs cs) (hostCAs cs).
Definition set_namespaces (v : list Namespace) (cs : CachingAuthClient) :=
  mkClient (lastErrorTime cs) (domainName cs) v (nodes cs) (proxies cs)
    (users cs) (userCAs cs) (hostCAs cs).
Definition set_nodes (v : gmap string (list Server))
    (cs : CachingAuthClient) :=
  mkClient (lastErrorTime cs) (domainName cs) (namespaces cs) v (proxies cs)
    (users cs) (userCAs cs) (hostCAs cs).
Definition set_proxies (v : list Server) (cs : CachingAuthClient) :=
  mkClient (lastErrorTime cs) (domainName cs) (namespaces cs) (nodes cs) v
    (users cs) (userCAs cs) (hostCAs cs).
Definition set_users (v : list User) (cs : CachingAuthClient) :=
  mkClient (lastErrorTime cs) (domainName cs) (namespaces cs) (nodes cs)
    (proxies cs) v (userCAs cs) (hostCAs cs).
Definition set_userCAs (v : list CertAuthority) (cs : CachingAuthClient) :=
  mkClient (lastErrorTime cs) (domainName cs) (namespaces cs) (nodes cs)
    (proxies cs) (users cs) v (hostCAs cs).
Definition set_hostCAs (v : list CertAuthority) (cs : CachingAuthClient) :=
  mkClient (lastErrorTime cs) (domainName cs) (namespaces cs) (nodes cs)
    (proxies cs) (users cs) (userCAs cs) v.

Definition M (L A : Type) : Type := St Env L -> A * St Env L.

Definition ret {L A} (a : A) : M L A := fun s => (a, s).
Definition bind {L A B} (m : M L A) (k : A -> M L B) : M L B :=
  fun s => let '(a, s1) := m s in k a s1.

#[local] Notation "'let*' x := m 'in' k" := (bind m (fun x => k))
  (at level 10, x pattern, m at level 100, k at level 200, only parsing).
#[local] Notation "'do' m 'then' k" := (bind m (fun _ => k))
  (at level 10, m at level 100, k at level 200, only parsing).

(** Reading and assigning the receiver and the captured locals. *)
Definition this {L} : M L CachingAuthClient := fun s => (self s, s).
Definition assign {L} (g : CachingAuthClient -> CachingAuthClient)
    : M L unit :=
  fun s => (tt, mkSt (vars s) (g (self s)) (world s)).
Definition locals {L} : M L L := fun s => (vars s, s).
Definition set_locals {L} (l : L) : M L unit :=
  fun s => (tt, mkSt l (self s) (world s)).

(** [time.Now()] *)
Definition Now {L} : M L Time := fun s => (time_Now (env (world s)), s).

(** [log.Warnf(msg)] *)
Definition Warnf {L} (msg : string) : M L unit :=
  fun s =>
    let w := world s in
    (tt, mkSt (vars s) (self s)
           (mkWorld (env w) (calls w) (warnings w ++ [msg]))).

(** A call [cs.ap.Op(args)]: run the operation of the upstream on the
    environment and append it, with its outcome, to the history. *)
Definition invoke {A} (op : Env -> (A * error) * Env)
    (ev : A -> error -> Event) (w : World Env) : (A * error) * World Env :=
  let '((r, err), e1) := op (env w) in
  ((r, err), mkWorld e1 (calls w ++ [ev r err]) (warnings w)).

Definition upstream {L A} (op : Env -> (A * error) * Env)
    (ev : A -> error -> Event) : M L (A * error) :=
  fun s =>
    let '(r, w1) := invoke op ev (world s) in
    (r, mkSt (vars s) (self s) w1).

(** [try] calls a given function [f] and checks for errors.  If [f()]
    fails, the current time is recorded; while less than
    [backoffDuration] has passed since the last error, [f] is not called. *)
Definition try {L} (f : M L error) : M L unit :=
  let* cs := this in
  let* now := Now in
  let tooSoon :=
    Time_After (Time_Add (lastErrorTime cs) backoffDuration) now in
  if tooSoon then
    Warnf
      "Not calling auth access point due to recent errors. Using cached value instead"
  else
    let* err := f in
    match err with
    | Some _ => let* now' := Now in assign (set_lastErrorTime now')
    | None => ret tt
    end.

(** A method of the client: from the receiver and the world to the
    returned values, the receiver and the world afterwards. *)
Definition Method (A : Type) : Type :=
  CachingAuthClient -> World Env -> A * CachingAuthClient * World Env.

(** Run a method body on a fresh frame of local variables. *)
Definition frame {L A} (l0 : L) (body : M L A) : Method A :=
  fun cs w =>
    let '(a, s) := body (mkSt l0 cs w) in
    (a, self s, world s).

(** [GetDomainName] is a part of auth.AccessPoint implementation *)
Definition GetDomainName : Method (string * error) :=
  frame tt (
    do try (
      let* (dn, err) := upstream ap_GetDomainName EvGetDomainName in
      do match err with
         | None => assign (set_domainName dn)
         | Some _ => ret tt
         end
      then ret err)
    then
    let* cs := this in
    ret (domainName cs, None)).

(** [GetNamespaces] is a part of auth.AccessPoint implementation *)
Definition GetNamespaces : Method (list Namespace * error) :=
  frame tt (
    do try (
      let* (namespaces, err) := upstream ap_GetNamespaces EvGetNamespaces in
      do match err with
         | None => assign (set_namespaces namespaces)
         | Some _ => ret tt
         end
      then ret err)
    then
    let* cs := this in
    ret (namespaces cs, None)).

(** [GetNodes] is a part of auth.AccessPoint implementation.  The locals
    [nsNodes] and [err] are declared outside the closure, which assigns
    them; the method returns the local [nsNodes]. *)
Definition GetNodes (namespace : string) : Method (list Server * error) :=
  frame (@nil Server, @None Err) (
    do try (
      let* (nsNodes, err) :=
        upstream (ap_GetNodes namespace) (EvGetNodes namespace) in
      do set_locals (nsNodes, err) then
      do match err with
         | None =>
             let* cs := this in
             assign (set_nodes (<[namespace := nsNodes]> (nodes cs)))
         | Some _ => ret tt
         end
      then ret err)
    then
    let* (nsNodes, _) := locals in
    ret (nsNodes, None)).

(** [GetProxies] is a part of auth.AccessPoint implementation *)
Definition GetProxies : Method (list Server * error) :=
  frame tt (
    do try (
      let* (proxies, err) := upstream ap_GetProxies EvGetProxies in
      do match err with
         | None => assign (set_proxies proxies)
         | Some _ => ret tt
         end
      then ret err)
    then
    let* cs := this in
    ret (proxies cs, None)).

(** [GetCertAuthorities] is a part of auth.AccessPoint implementation *)
Definition GetCertAuthorities (ct : CertAuthType) (loadKeys : bool)
    : Method (list CertAuthority * error) :=
  frame tt (
    do try (
      let* (retval, err) :=
        upstream (ap_GetCertAuthorities ct loadKeys)
          (EvGetCertAuthorities ct loadKeys) in
      do match err with
         | None =>
             if decide (ct = UserCA) then assign (set_userCAs retval)
             else assign (set_hostCAs retval)
         | Some _ => ret tt
         end
      then ret err)
    then
    let* cs := this in
    if decide (ct = UserCA) then ret (userCAs cs, None)
    else ret (hostCAs cs, None)).

(** [GetUsers] is a part of auth.AccessPoint implementation *)
Definition GetUsers : Method (list User * error) :=
  frame tt (
    do try (
      let* (users, err) := upstream ap_GetUsers EvGetUsers in
      do match err with
         | None => assign (set_users users)
         | Some _ => ret tt
         end
      then ret err)
    then
    let* cs := this in
    ret (users cs, None)).

(** A mutation call on the upstream returns an error only. *)
Definition invoke_mut (op : Env -> error * Env) (ev : error -> Event)
    (w : World Env) : error * World Env :=
  let '(err, e1) := op (env w) in
  (err, mkWorld e1 (calls w ++ [ev err]) (warnings w)).

(** [UpsertNode] is part of auth.AccessPoint implementation *)
Definition UpsertNode (s : Server) (ttl : Duration) : Method error :=
  fun cs w =>
    let '(err, w1) := invoke_mut (ap_UpsertNode s ttl) (EvUpsertNode s ttl) w in
    (err, cs, w1).

(** [UpsertProxy] is part of auth.AccessPoint implementation *)
Definition UpsertProxy (s : Server) (ttl : Duration) : Method error :=
  fun cs w =>
    let '(err, w1) :=
      invoke_mut (ap_UpsertProxy s ttl) (EvUpsertProxy s ttl) w in
    (err, cs, w1).

(** *** NewCachingAuthClient

    The constructor runs on the world alone and returns Go's pair of a
    pointer ([None] is [nil]) and an error. *)

Definition Ctor (A : Type) : Type := World Env -> A * World Env.

(** [v, err := c; if err != nil { return nil, trace.Wrap(err) }; k v] *)
Definition orReturn {A} (c : Ctor (A * error))
    (k : A -> Ctor (option CachingAuthClient * error))
    : Ctor (option CachingAuthClient * error) :=
  fun w =>
    let '((v, err), w1) := c w in
    match err with
    | Some e => ((None, Some (Wrap e)), w1)
    | None => k v w1
    end.

(** The loop [for _, ns := range namespaces] filling the map [nodes]; it
    stops at the first failing [ap.GetNodes] and hands its error back. *)
Fixpoint loadNodes (namespaces : list Namespace)
    (nodes : gmap string (list Server))
    : Ctor (gmap string (list Server) * error) :=
  fun w =>
    match namespaces with
    | [] => ((nodes, None), w)
    | ns :: rest =>
        let '((nsNodes, err), w1) :=
          invoke (ap_GetNodes (NamespaceName ns))
            (EvGetNodes (NamespaceName ns)) w in
        match err with
        | Some e => ((nodes, Some e), w1)
        | None => loadNodes rest (<[NamespaceName ns := nsNodes]> nodes) w1
        end
    end.

#[local] Notation "'let?' x := c 'in' k" := (orReturn c (fun x => k))
  (at level 10, x pattern, c at level 100, k at level 200, only parsing).

(** [NewCachingAuthClient] creates a new instance of [CachingAuthClient]
    using a live connection to the auth server.  The struct literal names
    [domainName], [nodes], [proxies], [users], [userCAs] and [hostCAs];
    the fields it does not name ([lastErrorTime], [namespaces]) keep their
    zero values. *)
Definition NewCachingAuthClient : Ctor (option CachingAuthClient * error) :=
  let? domainName := invoke ap_GetDomainName EvGetDomainName in
  let? namespaces := invoke ap_GetNamespaces EvGetNamespaces in
  let? nodes := loadNodes namespaces ∅ in
  let? proxies := invoke ap_GetProxies EvGetProxies in
  let? users := invoke ap_GetUsers EvGetUsers in
  let? userCAs :=
    invoke (ap_GetCertAuthorities UserCA false)
      (EvGetCertAuthorities UserCA false) in
  let? hostCAs :=
    invoke (ap_GetCertAuthorities HostCA false)
      (EvGetCertAuthorities HostCA false) in
  let cs := {|
    lastErrorTime := 0;
    domainName := domainName;
    namespaces := [];
    nodes := nodes;
    proxies := proxies;
    users := users;
    userCAs := userCAs;
    hostCAs := hostCAs
  |} in
  fun w => ((Some cs, None), w).

(** *** The read methods, taken together

    The six read methods differ in their arguments and in the type of what
    they return.  [ReadCall] names a read call with its arguments and
    [ReadValue] tags a returned value with its category, so that a
    statement can range over every read method. *)

Inductive ReadCall : Type :=
| CallGetDomainName
| CallGetNamespaces
| CallGetNodes (namespace : string)
| CallGetProxies
| CallGetUsers
| CallGetCertAuthorities (ct : CertAuthType) (loadKeys : bool).

Inductive ReadValue : Type :=
| VDomainName (v : string)
| VNamespaces (v : list Namespace)
| VServers (v : list Server)
| VUsers (v : list User)
| VCertAuthorities (v : list CertAuthority).

Definition tagged {A} (tag : A -> ReadValue) (m : Method (A * error))
    : Method (ReadValue * error) :=
  fun cs w => let '((v, err), cs1, w1) := m cs w in ((tag v, err), cs1, w1).

(** The read method of the client a call stands for. *)
Definition read (c : ReadCall) : Method (ReadValue * error) :=
  match c with
  | CallGetDomainName => tagged VDomainName GetDomainName
  | CallGetNamespaces => tagged VNamespaces GetNamespaces
  | CallGetNodes namespace => tagged VServers (GetNodes namespace)
  | CallGetProxies => tagged VServers GetProxies
  | CallGetUsers => tagged VUsers GetUsers
  | CallGetCertAuthorities ct loadKeys =>
      tagged VCertAuthorities (GetCertAuthorities ct loadKeys)
  end.

(** The operation of the upstream a call stands for. *)
Definition ap_read (c : ReadCall) (e : Env) : (ReadValue * error) * Env :=
  match c with
  | CallGetDomainName =>
      let '((v, err), e1) := ap_GetDomainName e in ((VDomainName v, err), e1)
  | CallGetNamespaces =>
      let '((v, err), e1) := ap_GetNamespaces e in ((VNamespaces v, err), e1)
  | CallGetNodes namespace =>
      let '((v, err), e1) := ap_GetNodes namespace e in
      ((VServers v, err), e1)
  | CallGetProxies =>
      let '((v, err), e1) := ap_GetProxies e in ((VServers v, err), e1)
  | CallGetUsers =>
      let '((v, err), e1) := ap_GetUsers e in ((VUsers v, err), e1)
  | CallGetCertAuthorities ct loadKeys =>
      let '((v, err), e1) := ap_GetCertAuthorities ct loadKeys e in
      ((VCertAuthorities v, err), e1)
  end.

(** The history entry of a call made on environment [e]. *)
Definition ev_read (c : ReadCall) (e : Env) : Event :=
  match c with
  | CallGetDomainName =>
      let '((v, err), _) := ap_GetDomainName e in EvGetDomainName v err
  | CallGetNamespaces =>
      let '((v, err), _) := ap_GetNamespaces e in EvGetNamespaces v err
  | CallGetNodes namespace =>
      let '((v, err), _) := ap_GetNodes namespace e in
      EvGetNodes namespace v err
  | CallGetProxies =>
      let '((v, err), _) := ap_GetProxies e in EvGetProxies v err
  | CallGetUsers =>
      let '((v, err), _) := ap_GetUsers e in EvGetUsers v err
  | CallGetCertAuthorities ct loadKeys =>
      let '((v, err), _) := ap_GetCertAuthorities ct loadKeys e in
      EvGetCertAuthorities ct loadKeys v err
  end.

(** The cached slot of a call's category.  [cs.nodes[namespace]] is the
    nil slice when the map has no entry for [namespace]. *)
Definition slot (c : ReadCall) (cs : CachingAuthClient) : ReadValue :=
  match c with
  | CallGetDomainName => VDomainName (domainName cs)
  | CallGetNamespaces => VNamespaces (namespaces cs)
  | CallGetNodes namespace =>
      VServers (default [] (nodes cs !! namespace))
  | CallGetProxies => VServers (proxies cs)
  | CallGetUsers => VUsers (users cs)
  | CallGetCertAuthorities ct _ =>
      VCertAuthorities
        (if decide (ct = UserCA) then userCAs cs else hostCAs cs)
  end.

(** What a method returned, and the receiver and the world it left. *)
Definition returned {A} (r : A * CachingAuthClient * World Env) : A := r.1.1.
Definition client_after {A} (r : A * CachingAuthClient * World Env)
    : CachingAuthClient := r.1.2.
Definition world_after {A} (r : A * CachingAuthClient * World Env)
    : World Env := r.2.

(** The condition under which [try] does not call its argument. *)
Definition suppressed (cs : CachingAuthClient) (w : World Env) : bool :=
  Time_After (Time_Add (lastErrorTime cs) backoffDuration)
    (time_Now (env w)).

(** The warning [try] logs when it does not call its argument. *)
Definition backoffWarning : string :=
  "Not calling auth access point due to recent errors. Using cached value instead".

(** The upstream calls made between world [w] and a later world [w1]. *)
Definition calls_since (w w1 : World Env) : list Event :=
  drop (length (calls w)) (calls w1).

(** *** The fields behind the read methods

    [SlotId] names a place of the client a read method is served from; the
    map [nodes] counts as one place per namespace. *)

Inductive SlotId : Type :=
| SlotDomainName
| SlotNamespaces
| SlotNodes (namespace : string)
| SlotProxies
| SlotUsers
| SlotUserCAs
| SlotHostCAs.

(** The place a read call assigns when its refresh succeeds. *)
Definition slot_of (c : ReadCall) : SlotId :=
  match c with
  | CallGetDomainName => SlotDomainName
  | CallGetNamespaces => SlotNamespaces
  | CallGetNodes namespace => SlotNodes namespace
  | CallGetProxies => SlotProxies
  | CallGetUsers => SlotUsers
  | CallGetCertAuthorities ct _ =>
      if decide (ct = UserCA) then SlotUserCAs else SlotHostCAs
  end.

(** What a place holds. *)
Definition slot_value (i : SlotId) (cs : CachingAuthClient) : ReadValue :=
  match i with
  | SlotDomainName => VDomainName (domainName cs)
  | SlotNamespaces => VNamespaces (namespaces cs)
  | SlotNodes namespace => VServers (default [] (nodes cs !! namespace))
  | SlotProxies => VServers (proxies cs)
  | SlotUsers => VUsers (users cs)
  | SlotUserCAs => VCertAuthorities (userCAs cs)
  | SlotHostCAs => VCertAuthorities (hostCAs cs)
  end.

(** [nodesLoaded namespaces e e']: from the environment [e], the calls
    [ap.GetNodes] for the names of [namespaces], made one after the other
    in the order of the list, all return a nil error and leave the
    environment [e']. *)
Inductive nodesLoaded : list Namespace -> Env -> Env -> Prop :=
| nodesLoaded_nil (e : Env) : nodesLoaded [] e e
| nodesLoaded_cons (ns : Namespace) (rest : list Namespace)
    (e e1 e2 : Env) (r : list Server) :
    ap_GetNodes (NamespaceName ns) e = ((r, None), e1) ->
    nodesLoaded rest e1 e2 ->
    nodesLoaded (ns :: rest) e e2.

(** *** Histories of the constructor

    [all_ok evs]: every call of [evs] returned a nil error.
    [stopped_at evs e]: the calls of [evs] returned nil errors up to the
    last one, which returned [e]. *)

Definition all_ok (evs : list Event) : Prop :=
  Forall (fun ev => Event_err ev = None) evs.

Definition stopped_at (evs : list Event) (e : Err) : Prop :=
  exists oks bad, evs = oks ++ [bad] /\ all_ok oks /\ Event_err bad = Some e.

(** A step of the constructor makes calls that end either all well, with
    a nil error, or at the first failing call, with the error of that
    call. *)
Definition traced_step {A} (c : Ctor (A * error)) : Prop :=
  forall w, exists evs,
    calls (c w).2 = calls w ++ evs /\
    match (c w).1.2 with
    | None => all_ok evs
    | Some e => stopped_at evs e
    end.

(** The same for a constructor, which wraps the error and returns a nil
    pointer with it. *)
Definition traced_ctor (c : Ctor (option CachingAuthClient * error)) : Prop :=
  forall w, exists evs,
    calls (c w).2 = calls w ++ evs /\
    match (c w).1 with
    | (Some _, None) => all_ok evs
    | (None, Some e') => exists e, stopped_at evs e /\ e' = Wrap e
    | _ => False
    end.

End Client.

Arguments M {_} Env L A.
Arguments Method {_} Env A.
Arguments Ctor {_} Env A.

(** *** A scripted upstream

    A small access point to run the model on.  It answers every read with
    a fixed value, except that the operations named in [broken] fail with
    a connection error; every call takes one millisecond. *)

Module fake.

Local Open Scope string_scope.

Definition services : Services := {|
  Namespace := string;
  NamespaceName := fun ns => ns;
  Server := string;
  User := string;
  CertAuthority := string;
  CertAuthType := string;
  CertAuthType_eq_dec := _;
  UserCA := "user";
  HostCA := "host";
  Err := string;
  Wrap := fun e => e
|}.

Record Env : Type := mkEnv { clock : Time; broken : list string }.

Definition tick (e : Env) : Env := mkEnv (clock e + 1000000) (broken e).

Definition fails (op : string) (e : Env) : bool :=
  bool_decide (op ∈ broken e).

Definition answer {A} (op : string) (v zero : A) (e : Env)
    : (A * option string) * Env :=
  if fails op e then ((zero, Some "connection refused"), tick e)
  else ((v, None), tick e).

Definition acknowledge (op : string) (e : Env) : option string * Env :=
  (if fails op e then Some "connection refused" else None, tick e).

Definition ap : @AccessPoint services Env :=
  @Build_AccessPoint services Env
    (answer "GetDomainName" "example.com" "")
    (answer "GetNamespaces" ["default"] [])
    (fun _ => answer "GetNodes" ["node-1"] [])
    (answer "GetProxies" ["proxy-1"] [])
    (answer "GetUsers" ["alice"] [])
    (fun ct _ =>
       answer "GetCertAuthorities"
         [if decide (ct = "user") then "user-ca" else "host-ca"] [])
    (fun _ _ => acknowledge "UpsertNode")
    (fun _ _ => acknowledge "UpsertProxy").

Definition wallClock : Clock Env := {| time_Now := clock |}.

(** A world at instant [t] with an empty history. *)
Definition worldAt (t : Time) (down : list string) : @World services Env :=
  mkWorld (mkEnv t down) [] [].

(** A client whose every slot holds a stale value, last failure at [t]. *)
Definition client (t : Time) : @CachingAuthClient services :=
  @mkClient services
    (* lastErrorTime *) t
    (* domainName *) "old.example.com"
    (* namespaces *) ["old-namespace"]
    (* nodes *) {[ "default" := ["old-node"] ]}
    (* proxies *) ["old-proxy"]
    (* users *) ["old-user"]
    (* userCAs *) ["old-user-ca"]
    (* hostCAs *) ["old-host-ca"].

(** The same world after [d] nanoseconds have passed. *)
Definition later (d : Duration) (w : @World services Env)
    : @World services Env :=
  mkWorld (mkEnv (clock (env w) + d) (broken (env w))) (calls w) (warnings w).

(** The same world with the operations named in [down] failing. *)
Definition outage (down : list string) (w : @World services Env)
    : @World services Env :=
  mkWorld (mkEnv (clock (env w)) down) (calls w) (warnings w).

(** A closure for [try]: ask the upstream for the domain name and return
    the error of the call. *)
Definition ping : @M services Env unit (@error services) :=
  fun s =>
    let '((_, err), w1) :=
      @invoke services Env string (@ap_GetDomainName services Env ap)
        (@EvGetDomainName services) (world s) in
    (err, mkSt (vars s) (self s) w1).

(** A closure for [try] that runs while the clock of the machine is set
    back by [d]: the call to the upstream fails, and when it returns the
    clock shows [d] nanoseconds less than when it was made. *)
Definition pingWhileClockSetBack (d : Duration)
    : @M services Env unit (@error services) :=
  fun s =>
    let w := world s in
    (Some "connection refused",
     mkSt (vars s) (self s)
       (mkWorld (mkEnv (clock (env w) - d) (broken (env w)))
          (calls w ++
           [@EvGetDomainName services "" (Some "connection refused")])
          (warnings w))).

End fake.

End state.

(** ** Package ansible *)

Module ansible.

Local Open Scope string_scope.

(** [services.Server] is an interface; the formatter calls two of its
    methods, the address and the labels of the node. *)
Record Server : Type := mkServer {
  GetAddr : string;
  GetAllLabels : gmap string string
}.

(** [Group] gathers hosts and variables common to them. *)
Record Group : Type := mkGroup {
  Hosts : list string;
  Vars : gmap string string
}.

(** [strings.Split(s, sep)] for a separator of one byte: the pieces of [s]
    between the occurrences of [sep], of which there is always one more
    than there are occurrences. *)
Fixpoint Split (s : string) (sep : ascii) : list string :=
  match s with
  | EmptyString => [EmptyString]
  | String c rest =>
      if Ascii.eqb c sep then EmptyString :: Split rest sep
      else
        match Split rest sep with
        | piece :: pieces => String c piece :: pieces
        | [] => [String c EmptyString]
        end
  end.

(** Does the byte [sep] occur in [s]? *)
Fixpoint mentions (sep : ascii) (s : string) : bool :=
  match s with
  | EmptyString => false
  | String c rest => Ascii.eqb c sep || mentions sep rest
  end.

(** [strings.Split(nodeAddr, ":")[0]] *)
Definition trimTrailingPort (nodeAddr : string) : string :=
  default EmptyString (Split nodeAddr ":"%char !! 0%nat).

(** The body of the inner loop of [bufferLabels], for node [n] and one of
    its labels. *)
Definition addLabel (n : Server) (labelBuffer : gmap string (list string))
    (entry : string * string) : gmap string (list string) :=
  let '(label, val) := entry in
  (* groupName is of the form apache-2.2 *)
  let groupName := label ++ "-" ++ val in
  (* remove trailing port in host (if any) *)
  let IP := trimTrailingPort (GetAddr n) in
  <[groupName := (default [] (labelBuffer !! groupName) ++ [IP])%list]>
    labelBuffer.

(** The inner loop, ranging over the labels in the order [labels]. *)
Definition addNode (n : Server) (labels : list (string * string))
    (labelBuffer : gmap string (list string)) : gmap string (list string) :=
  foldl (addLabel n) labelBuffer labels.

(** [bufferLabels] gathers labels values and creates groups associating
    hosts with identical labels values.  Go ranges over a map in an order
    it does not specify; here the labels of a node are visited in the order
    of [map_to_list]. *)
Definition bufferLabels (nodes : list Server) : gmap string (list string) :=
  foldl
    (fun labelBuffer n => addNode n (map_to_list (GetAllLabels n)) labelBuffer)
    ∅ nodes.

(** The loop of [DynamicInventoryList] that builds the inventory. *)
Definition inventoryOf (hostsByLabels : list (string * list string))
    : gmap string Group :=
  foldl (fun inventory '(labelDashValue, hosts) =>
           <[labelDashValue := mkGroup hosts ∅]> inventory)
    ∅ hostsByLabels.

(** The hosts node [n] adds to group [groupName]: its address without the
    port, once for every label of the node whose name and value join to
    [groupName]. *)
Definition hostsOf (groupName : string) (n : Server) : list string :=
  replicate
    (length (filter (fun entry => entry.1 ++ "-" ++ entry.2 = groupName)
               (map_to_list (GetAllLabels n))))
    (trimTrailingPort (GetAddr n)).

(** The lines [StaticInventory] writes for the groups [inventory], ranged
    over in the order of the list: for every group its name between
    brackets, then its hosts, one [fmt.Println] each. *)
Definition printGroups (inventory : list (string * list string))
    : list string :=
  inventory ≫= (fun '(groupName, nodeIPs) =>
                  ("[" ++ groupName ++ "]") :: nodeIPs).

(** [StaticInventory] writes to stdout an INI-formated ouput compatible
    with Ansible static inventory format; the result is the lines written,
    the groups ranged over in the order of [map_to_list]. *)
Definition StaticInventory (nodes : list Server) : list string :=
  let inventory := bufferLabels nodes in
  printGroups (map_to_list inventory).

Section Marshal.

(** [json.Marshal] on an inventory: the encoding and an error, [None]
    being [nil]; an error is its message. *)
Variable Marshal : gmap string Group -> string * option string.

(** [DynamicInventoryList] returns a JSON-formated ouput compatible with
    Ansible --list flag. *)
Definition DynamicInventoryList (nodes : list Server)
    : string * option string :=
  let hostsByLabels := bufferLabels nodes in
  let inventory := inventoryOf (map_to_list hostsByLabels) in
  let '(out, err) := Marshal inventory in
  match err with
  | Some e => ("", Some ("cannot encode JSON objet: " ++ e))
  | None => (out ++ String "010"%char EmptyString, None)
  end.

End Marshal.

(** The servers of the test of the package. *)
Definition serverFixture : list Server := [
  mkServer "198.145.29.83" {[ "os" := "gentoo" ]};
  mkServer "11.1.1.1" {[ "os" := "coreos"; "role" := "database" ]};
  mkServer "8.8.4.4" {[ "os" := "plan9"; "role" := "database" ]}
].

(** The same servers, each listening on a port. *)
Definition serverFixtureOn (port1 port2 port3 : string) : list Server := [
  mkServer ("198.145.29.83:" ++ port1) {[ "os" := "gentoo" ]};
  mkServer ("11.1.1.1:" ++ port2) {[ "os" := "coreos"; "role" := "database" ]};
  mkServer ("8.8.4.4:" ++ port3) {[ "os" := "plan9"; "role" := "database" ]}
].

(** The groups expected of the fixture. *)
Definition fixtureGroups : gmap string (list string) :=
  {[ "os-gentoo" := ["198.145.29.83"];
     "os-coreos" := ["11.1.1.1"];
     "os-plan9" := ["8.8.4.4"];
     "role-database" := ["11.1.1.1"; "8.8.4.4"] ]}.

End ansible.

(** * Properties of the caching auth client *)

Import state.

Section CachingAuthClientSpec.
Context `{Services} {Env : Type} `{!AccessPoint Env} `{!Clock Env}.

Local Open Scope Z_scope.

Ltac unfold_read :=
  unfold read, tagged, ap_read, ev_read, slot, GetDomainName, GetNamespaces,
    GetNodes, GetProxies, GetUsers, GetCertAuthorities, frame, try, bind,
    this, Now, upstream, invoke, assign, ret, Warnf, locals, set_locals,
    suppressed, returned, client_after, world_after, backoffWarning in *;
  cbn [vars self world env calls warnings fst snd] in *.

Ltac run_read := repeat case_match; simplify_eq/=.

(** The gate, as a comparison of instants. *)
Lemma suppressed_true (cs : CachingAuthClient) (w : World Env) :
  suppressed cs w = true <->
  time_Now (env w) < lastErrorTime cs + 10 * Second.
Proof.
  unfold suppressed, Time_After, Time_Add, backoffDuration.
  rewrite Z.ltb_lt. lia.
Qed.

Lemma suppressed_false (cs : CachingAuthClient) (w : World Env) :
  suppressed cs w = false <->
  lastErrorTime cs + 10 * Second <= time_Now (env w).
Proof.
  unfold suppressed, Time_After, Time_Add, backoffDuration.
  rewrite Z.ltb_ge. lia.
Qed.

(** [try] inside the window: the closure is not run, a warning is logged. *)
Lemma try_when_suppressed {L} (f : M Env L error) (s : St Env L) :
  suppressed (self s) (world s) = true ->
  try f s =
    (tt, mkSt (vars s) (self s)
           (mkWorld (env (world s)) (calls (world s))
              (warnings (world s) ++ [backoffWarning]))).
Proof.
  intros Hs. unfold try, bind, this, Now, Warnf, suppressed in *.
  cbn. rewrite Hs. reflexivity.
Qed.

(** [try] outside the window: the closure is run once, and the instant is
    recorded when it returns an error. *)
Lemma try_when_allowed {L} (f : M Env L error) (s : St Env L) :
  suppressed (self s) (world s) = false ->
  try f s =
    (tt, match (f s).1 with
         | Some _ =>
             mkSt (vars (f s).2)
               (set_lastErrorTime (time_Now (env (world (f s).2)))
                  (self (f s).2))
               (world (f s).2)
         | None => (f s).2
         end).
Proof.
  intros Hs. unfold try, bind, this, Now, assign, ret, suppressed in *.
  cbn. rewrite Hs. destruct (f s) as [[e|] s1]; reflexivity.
Qed.

(** A read inside the window. *)
Lemma read_when_suppressed c cs w :
  suppressed cs w = true ->
  read c cs w =
    ((match c with CallGetNodes _ => VServers [] | _ => slot c cs end, None),
     cs,
     mkWorld (env w) (calls w) (warnings w ++ [backoffWarning])).
Proof.
  intros Hs. destruct c; unfold_read; rewrite Hs; cbn; try reflexivity.
  destruct (decide (ct = UserCA)); reflexivity.
Qed.

(** A read outside the window whose upstream call fails. *)
Lemma read_when_failed c cs w v e e1 :
  suppressed cs w = false ->
  ap_read c (env w) = ((v, Some e), e1) ->
  read c cs w =
    ((match c with CallGetNodes _ => v | _ => slot c cs end, None),
     set_lastErrorTime (time_Now e1) cs,
     mkWorld e1 (calls w ++ [ev_read c (env w)]) (warnings w)).
Proof.
  intros Hs Hap. destruct c; unfold_read; rewrite Hs; cbn.
  all: run_read; reflexivity.
Qed.

(** A read outside the window whose upstream call succeeds. *)
Lemma read_when_refreshed c cs w v e1 :
  suppressed cs w = false ->
  ap_read c (env w) = ((v, None), e1) ->
  exists cs1,
    read c cs w =
      ((v, None), cs1,
       mkWorld e1 (calls w ++ [ev_read c (env w)]) (warnings w)) /\
    slot c cs1 = v /\
    lastErrorTime cs1 = lastErrorTime cs.
Proof.
  intros Hs Hap. destruct c; unfold_read; rewrite Hs; cbn.
  all: run_read; eexists; (split; [reflexivity|]); cbn; (split; [|done]).
  all: try reflexivity.
  by rewrite lookup_insert_eq.
Qed.

(** X1.  No read method ever returns an error, whatever the state of the
    client, the clock and the upstream. *)
Lemma read_error_nil c cs w : (returned (read c cs w)).2 = None.
Proof.
  destruct (suppressed cs w) eqn:Hs.
  - by rewrite read_when_suppressed.
  - destruct (ap_read c (env w)) as [[v [e|]] e1] eqn:Hap.
    + by erewrite read_when_failed.
    + destruct (read_when_refreshed c cs w v e1 Hs Hap) as (cs1 & -> & _).
      reflexivity.
Qed.

(** X2.  Every read method leaves the slot of its category alone when the
    attempt is suppressed or fails, and every read method but [GetNodes]
    then returns that slot. *)
Lemma read_fail_soft c cs w :
  suppressed cs w = true \/ (ap_read c (env w)).1.2 <> None ->
  slot c (client_after (read c cs w)) = slot c cs /\
  ((forall namespace, c <> CallGetNodes namespace) ->
   (returned (read c cs w)).1 = slot c cs).
Proof.
  intros Hcase. destruct (suppressed cs w) eqn:Hs.
  - rewrite read_when_suppressed by done. unfold client_after, returned.
    cbn. split; [done|]. intros Hc. destruct c; try done. by destruct (Hc namespace).
  - destruct Hcase as [|Herr]; [done|].
    destruct (ap_read c (env w)) as [[v [e|]] e1] eqn:Hap; [|done].
    erewrite read_when_failed by done. unfold client_after, returned.
    cbn. split.
    + by destruct c.
    + intros Hc. destruct c; try done. by destruct (Hc namespace).
Qed.

(** What becomes of the failure timestamp in a read. *)
Lemma read_failure_clock c cs w :
  lastErrorTime (client_after (read c cs w)) =
    if suppressed cs w then lastErrorTime cs
    else match ap_read c (env w) with
         | ((_, Some _), e1) => time_Now e1
         | ((_, None), _) => lastErrorTime cs
         end.
Proof.
  destruct (suppressed cs w) eqn:Hs.
  - by rewrite read_when_suppressed.
  - destruct (ap_read c (env w)) as [[v [e|]] e1] eqn:Hap.
    + by erewrite read_when_failed.
    + destruct (read_when_refreshed c cs w v e1 Hs Hap) as (cs1 & -> & _ & ?).
      done.
Qed.

(** C3.  With the last failure recorded at instant [T], a read attempted
    at an instant strictly between [T] and [T] plus ten seconds makes no
    call to the upstream: the history and the environment are as before.
    A read attempted at or after [T] plus ten seconds makes the call of
    its category, once. *)
Theorem backoff_window (c : ReadCall) (cs : CachingAuthClient)
    (w : World Env) :
  let T := lastErrorTime cs in
  let t := time_Now (env w) in
  let w1 := world_after (read c cs w) in
  (T < t < T + 10 * Second ->
   calls w1 = calls w /\ env w1 = env w) /\
  (T + 10 * Second <= t ->
   calls w1 = calls w ++ [ev_read c (env w)] /\
   env w1 = (ap_read c (env w)).2).
Proof.
  cbv zeta. split.
  - intros [_ Hlt]. apply suppressed_true in Hlt.
    by rewrite read_when_suppressed.
  - intros Hge. apply suppressed_false in Hge.
    destruct (ap_read c (env w)) as [[v [e|]] e1] eqn:Hap.
    + by erewrite read_when_failed.
    + destruct (read_when_refreshed c cs w v e1 Hge Hap) as (cs1 & -> & _).
      done.
Qed.

(** C4, as amended.  For every call of [try] on a closure [f]:
    - made less than ten seconds after the recorded failure, [f] is not
      called and the client, failure timestamp included, is what it was;
    - made later, with [f] returning a nil error, [try] assigns nothing:
      the state is the one [f] left;
    - made later, with [f] returning an error, the failure timestamp
      becomes the instant the clock shows once [f] has returned, nothing
      else of what [f] left is changed, and the new timestamp lies ten
      seconds or more after the old one, so is not a decrease, provided
      the clock did not run backwards while [f] ran.
    And for the closures the six read methods pass to [try], which are
    all the calls of [try] there are: after a read that is suppressed, or
    whose upstream call succeeds, the failure timestamp is what it was
    before the read; after a read whose upstream call fails it is the
    instant the clock shows once that call has returned. *)
Theorem try_failure_timestamp {L} (f : M Env L error) (s : St Env L) :
  let s1 := (f s).2 in
  let s2 := (try f s).2 in
  (time_Now (env (world s)) < lastErrorTime (self s) + 10 * Second ->
   self s2 = self s /\ vars s2 = vars s /\
   env (world s2) = env (world s) /\ calls (world s2) = calls (world s)) /\
  (lastErrorTime (self s) + 10 * Second <= time_Now (env (world s)) ->
   (f s).1 = None ->
   s2 = s1) /\
  (lastErrorTime (self s) + 10 * Second <= time_Now (env (world s)) ->
   (f s).1 <> None ->
   self s2 = set_lastErrorTime (time_Now (env (world s1))) (self s1) /\
   vars s2 = vars s1 /\ world s2 = world s1 /\
   (time_Now (env (world s)) <= time_Now (env (world s1)) ->
    lastErrorTime (self s) + 10 * Second <= lastErrorTime (self s2))) /\
  (forall (c : ReadCall) (cs : CachingAuthClient) (w : World Env),
     (time_Now (env w) < lastErrorTime cs + 10 * Second \/
      (lastErrorTime cs + 10 * Second <= time_Now (env w) /\
       (ap_read c (env w)).1.2 = None) ->
      lastErrorTime (client_after (read c cs w)) = lastErrorTime cs) /\
     (lastErrorTime cs + 10 * Second <= time_Now (env w) ->
      (ap_read c (env w)).1.2 <> None ->
      lastErrorTime (client_after (read c cs w)) =
        time_Now (ap_read c (env w)).2)).
Proof.
  cbv zeta. split; [|split; [|split]].
  - intros Hlt%suppressed_true. by rewrite try_when_suppressed.
  - intros Hge%suppressed_false Hok. rewrite try_when_allowed by done.
    cbn. by rewrite Hok.
  - intros Hge Herr. pose proof Hge as Hs%suppressed_false.
    rewrite try_when_allowed by done.
    destruct (f s) as [[e|] s1]; [|done]. cbn.
    repeat split. intros Hclock. lia.
  - intros c cs w. split.
    + intros [Hlt%suppressed_true | [Hge%suppressed_false Hok]].
      * by rewrite read_when_suppressed.
      * destruct (ap_read c (env w)) as [[v [e|]] e1] eqn:Hap; [done|].
        destruct (read_when_refreshed c cs w v e1 Hge Hap)
          as (cs1 & -> & _ & ?).
        done.
    + intros Hge%suppressed_false Herr.
      destruct (ap_read c (env w)) as [[v [e|]] e1] eqn:Hap; [|done].
      by erewrite read_when_failed.
Qed.

(** C5.  For every read method, when the gate lets the attempt through and
    the upstream call succeeds, the method returns the value of the
    upstream and the slot of its category holds that value afterwards. *)
Theorem refresh_overwrites_slot (c : ReadCall) (cs : CachingAuthClient)
    (w : World Env) (v : ReadValue) (e1 : Env) :
  lastErrorTime cs + 10 * Second <= time_Now (env w) ->
  ap_read c (env w) = ((v, None), e1) ->
  slot c (client_after (read c cs w)) = v /\
  returned (read c cs w) = (v, None).
Proof.
  intros Hge Hap. apply suppressed_false in Hge.
  destruct (read_when_refreshed c cs w v e1 Hge Hap) as (cs1 & -> & ? & _).
  done.
Qed.

(** C7.  With [UserCA] and [HostCA] two different kinds: a call of
    [GetCertAuthorities] with kind [UserCA] returns the user-CA slot and
    leaves the host-CA slot as it was, a call with kind [HostCA] returns
    the host-CA slot and leaves the user-CA slot as it was, and neither
    touches a slot of another category. *)
Theorem GetCertAuthorities_kinds_apart (loadKeys : bool)
    (cs : CachingAuthClient) (w : World Env) :
  UserCA <> HostCA ->
  let u := GetCertAuthorities UserCA loadKeys cs w in
  let h := GetCertAuthorities HostCA loadKeys cs w in
  (hostCAs (client_after u) = hostCAs cs /\
   (returned u).1 = userCAs (client_after u)) /\
  (userCAs (client_after h) = userCAs cs /\
   (returned h).1 = hostCAs (client_after h)) /\
  (forall r, r = u \/ r = h ->
     domainName (client_after r) = domainName cs /\
     namespaces (client_after r) = namespaces cs /\
     nodes (client_after r) = nodes cs /\
     proxies (client_after r) = proxies cs /\
     users (client_after r) = users cs).
Proof.
  intros Hne. cbv zeta. split; [|split].
  - unfold_read. run_read; done.
  - unfold_read. run_read; done || congruence.
  - intros r [-> | ->]; unfold_read; run_read; done.
Qed.

(** C8.  [UpsertNode] and [UpsertProxy] return the error of the upstream
    call, make that call whatever the failure timestamp says, and leave the
    client, failure timestamp included, as it was. *)
Theorem Upsert_passes_through (s : Server) (ttl : Duration)
    (cs : CachingAuthClient) (w : World Env) :
  (returned (UpsertNode s ttl cs w) = (ap_UpsertNode s ttl (env w)).1 /\
   client_after (UpsertNode s ttl cs w) = cs /\
   env (world_after (UpsertNode s ttl cs w)) =
     (ap_UpsertNode s ttl (env w)).2 /\
   calls (world_after (UpsertNode s ttl cs w)) =
     calls w ++ [EvUpsertNode s ttl (ap_UpsertNode s ttl (env w)).1]) /\
  (returned (UpsertProxy s ttl cs w) = (ap_UpsertProxy s ttl (env w)).1 /\
   client_after (UpsertProxy s ttl cs w) = cs /\
   env (world_after (UpsertProxy s ttl cs w)) =
     (ap_UpsertProxy s ttl (env w)).2 /\
   calls (world_after (UpsertProxy s ttl cs w)) =
     calls w ++ [EvUpsertProxy s ttl (ap_UpsertProxy s ttl (env w)).1]).
Proof.
  unfold UpsertNode, UpsertProxy, invoke_mut, returned, client_after,
    world_after.
  destruct (ap_UpsertNode s ttl (env w)) as [errN eN].
  destruct (ap_UpsertProxy s ttl (env w)) as [errP eP].
  cbn. done.
Qed.

(** C10.  For every kind other than [UserCA], [GetCertAuthorities] returns
    the host-CA slot, overwrites that slot with the value of a successful
    refresh, leaves it alone otherwise, and never writes the user-CA slot;
    for the kind [UserCA] it returns the user-CA slot. *)
Theorem GetCertAuthorities_other_kinds (ct : CertAuthType)
    (loadKeys : bool) (cs : CachingAuthClient) (w : World Env) :
  ct <> UserCA ->
  let r := GetCertAuthorities ct loadKeys cs w in
  let up := ap_GetCertAuthorities ct loadKeys (env w) in
  (returned r).1 = hostCAs (client_after r) /\
  userCAs (client_after r) = userCAs cs /\
  hostCAs (client_after r) =
    (if suppressed cs w then hostCAs cs
     else match up.1.2 with
          | None => up.1.1
          | Some _ => hostCAs cs
          end) /\
  (returned (GetCertAuthorities UserCA loadKeys cs w)).1 =
    userCAs (client_after (GetCertAuthorities UserCA loadKeys cs w)).
Proof.
  intros Hne. cbv zeta. repeat split.
  - unfold_read. run_read; done.
  - unfold_read. run_read; done.
  - unfold_read.
    destruct (Time_After _ _); cbn; [by destruct (decide _)|].
    destruct (ap_GetCertAuthorities ct loadKeys (env w)) as [[v [e|]] e1];
      cbn; by destruct (decide _).
  - unfold_read. run_read; done.
Qed.

End CachingAuthClientSpec.

(** ** The constructor *)

Section ConstructorSpec.
Context `{Services} {Env : Type} `{!AccessPoint Env}.

Lemma all_ok_one (ev : Event) : Event_err ev = None -> all_ok [ev].
Proof. intros Hev. by repeat constructor. Qed.

Lemma stopped_at_one (ev : Event) e : Event_err ev = Some e -> stopped_at [ev] e.
Proof. intros Hev. exists [], ev. repeat split; [constructor | done]. Qed.

Lemma stopped_at_cons (ev : Event) evs e :
  Event_err ev = None -> stopped_at evs e -> stopped_at (ev :: evs) e.
Proof.
  intros Hev (oks & bad & -> & Hoks & Hbad).
  exists (ev :: oks), bad. repeat split; [by constructor | done].
Qed.

Lemma stopped_at_app (oks evs : list Event) e :
  all_ok oks -> stopped_at evs e -> stopped_at (oks ++ evs) e.
Proof.
  induction 1 as [|ev oks Hev _ IH]; intros Hst; [done|].
  cbn. apply stopped_at_cons; auto.
Qed.

(** A failing call of a history that stopped is its last call. *)
Lemma stopped_at_failed (evs : list Event) e (ev : Event) e' :
  stopped_at evs e -> ev ∈ evs -> Event_err ev = Some e' -> e' = e.
Proof.
  intros (oks & bad & -> & Hoks & Hbad) Hin Hev.
  apply elem_of_app in Hin as [Hin | Hin].
  - unfold all_ok in Hoks. rewrite Forall_forall in Hoks.
    specialize (Hoks ev Hin). congruence.
  - apply list_elem_of_singleton in Hin as ->. congruence.
Qed.

Lemma invoke_traced {A} (op : Env -> (A * error) * Env)
    (ev : A -> error -> Event) :
  (forall r err, Event_err (ev r err) = err) ->
  traced_step (invoke op ev).
Proof.
  intros Hev w. unfold invoke.
  destruct (op (env w)) as [[r err] e1]. exists [ev r err]. cbn.
  split; [done|].
  destruct err as [e|]; [apply stopped_at_one | apply all_ok_one]; apply Hev.
Qed.

Lemma loadNodes_traced nss (m : gmap string (list Server)) :
  traced_step (loadNodes nss m).
Proof.
  induction nss as [|ns rest IH] in m |- *; intros w; cbn.
  - exists []. rewrite app_nil_r. split; [done | constructor].
  - unfold invoke.
    destruct (ap_GetNodes (NamespaceName ns) (env w)) as [[r [e|]] e1]; cbn.
    + eexists [_]. split; [done|]. by apply stopped_at_one.
    + match goal with |- context [loadNodes rest ?m' ?w'] =>
        destruct (IH m' w') as (evs & Hc & Ho) end.
      cbn in Hc. eexists (_ :: evs). split.
      { rewrite Hc, <- app_assoc. reflexivity. }
      destruct ((loadNodes rest _ _).1.2).
      * by apply stopped_at_cons.
      * by constructor.
Qed.

Lemma orReturn_traced {A} (c : Ctor Env (A * error))
    (k : A -> Ctor Env (option CachingAuthClient * error)) :
  traced_step c -> (forall v, traced_ctor (k v)) ->
  traced_ctor (orReturn c k).
Proof.
  intros Hc Hk w. unfold orReturn.
  destruct (Hc w) as (evs & Hcalls & Hout).
  destruct (c w) as [[v [e|]] w1]; cbn in *.
  - exists evs. split; [done|]. by exists e.
  - destruct (Hk v w1) as (evs' & Hcalls' & Hout').
    exists (evs ++ evs'). split.
    { rewrite Hcalls', Hcalls, <- app_assoc. reflexivity. }
    destruct ((k v w1).1) as [[cs|] [e'|]]; try done.
    + unfold all_ok in *. by apply Forall_app.
    + destruct Hout' as (e & Hst & ->). exists e. split; [|done].
      by apply stopped_at_app.
Qed.

Lemma NewCachingAuthClient_traced : traced_ctor NewCachingAuthClient.
Proof.
  unfold NewCachingAuthClient.
  repeat (apply orReturn_traced;
          [first [by apply invoke_traced | apply loadNodes_traced] | intros ?]).
  intros w. exists []. cbn. rewrite app_nil_r. split; [done | constructor].
Qed.

Lemma calls_since_app (w w1 : World Env) evs :
  calls w1 = calls w ++ evs -> calls_since w w1 = evs.
Proof. unfold calls_since. intros ->. by rewrite drop_app_length. Qed.

(** The loop over the namespaces on an upstream whose [GetNodes] succeed:
    it returns a nil error and leaves the environment these calls leave. *)
Lemma loadNodes_loaded nss (m : gmap string (list Server)) (w : World Env)
    (e3 : Env) :
  nodesLoaded nss (env w) e3 ->
  exists m' w1, loadNodes nss m w = ((m', None), w1) /\ env w1 = e3.
Proof.
  intros Hloaded. remember (env w) as e eqn:He.
  induction Hloaded as [e|ns rest e e1 e2 r Hcall _ IH] in m, w, He |- *;
    subst e; cbn.
  - by eexists _, _.
  - unfold invoke. rewrite Hcall. cbn. by apply IH.
Qed.

(** The loop stops at the first namespace whose [GetNodes] fails, with the
    error of that call. *)
Lemma loadNodes_fails_at pre ns post (m : gmap string (list Server))
    (w : World Env) (e3 e4 : Env) r e :
  nodesLoaded pre (env w) e3 ->
  ap_GetNodes (NamespaceName ns) e3 = ((r, Some e), e4) ->
  exists m' w1, loadNodes (pre ++ ns :: post) m w = ((m', Some e), w1).
Proof.
  intros Hloaded Hfail. remember (env w) as e0 eqn:He.
  induction Hloaded as [e0|ns0 rest e0 e1 e2 r0 Hcall _ IH]
    in m, w, He, Hfail |- *; subst e0; cbn.
  - unfold invoke. rewrite Hfail. by eexists _, _.
  - unfold invoke. rewrite Hcall. cbn. by apply IH.
Qed.

(** C6.  [NewCachingAuthClient] returns no client and the error, wrapped,
    of the first initial load that fails, whichever of the seven it is:
    the domain name; the namespaces; the nodes of any one of the namespaces
    returned, those of the namespaces before it having loaded; the proxies;
    the users; the user CAs; the host CAs.  Each load is the call of the
    upstream on the environment the loads before it left, and nothing is
    asked of the loads that would have come after.  In terms of the calls
    made: if any call the constructor made returned an error, that error,
    wrapped, is what it returns, with no client. *)
Theorem NewCachingAuthClient_fails_on_any_load (w : World Env) (e : Err) :
  let fails := (NewCachingAuthClient w).1 = (None, Some (Wrap e)) in
  (forall dn e1,
     ap_GetDomainName (env w) = ((dn, Some e), e1) -> fails) /\
  (forall dn e1 nss e2,
     ap_GetDomainName (env w) = ((dn, None), e1) ->
     ap_GetNamespaces e1 = ((nss, Some e), e2) -> fails) /\
  (forall dn e1 pre ns post e2 e3 r e4,
     ap_GetDomainName (env w) = ((dn, None), e1) ->
     ap_GetNamespaces e1 = ((pre ++ ns :: post, None), e2) ->
     nodesLoaded pre e2 e3 ->
     ap_GetNodes (NamespaceName ns) e3 = ((r, Some e), e4) -> fails) /\
  (forall dn e1 nss e2 e3 px e4,
     ap_GetDomainName (env w) = ((dn, None), e1) ->
     ap_GetNamespaces e1 = ((nss, None), e2) ->
     nodesLoaded nss e2 e3 ->
     ap_GetProxies e3 = ((px, Some e), e4) -> fails) /\
  (forall dn e1 nss e2 e3 px e4 us e5,
     ap_GetDomainName (env w) = ((dn, None), e1) ->
     ap_GetNamespaces e1 = ((nss, None), e2) ->
     nodesLoaded nss e2 e3 ->
     ap_GetProxies e3 = ((px, None), e4) ->
     ap_GetUsers e4 = ((us, Some e), e5) -> fails) /\
  (forall dn e1 nss e2 e3 px e4 us e5 uca e6,
     ap_GetDomainName (env w) = ((dn, None), e1) ->
     ap_GetNamespaces e1 = ((nss, None), e2) ->
     nodesLoaded nss e2 e3 ->
     ap_GetProxies e3 = ((px, None), e4) ->
     ap_GetUsers e4 = ((us, None), e5) ->
     ap_GetCertAuthorities UserCA false e5 = ((uca, Some e), e6) -> fails) /\
  (forall dn e1 nss e2 e3 px e4 us e5 uca e6 hca e7,
     ap_GetDomainName (env w) = ((dn, None), e1) ->
     ap_GetNamespaces e1 = ((nss, None), e2) ->
     nodesLoaded nss e2 e3 ->
     ap_GetProxies e3 = ((px, None), e4) ->
     ap_GetUsers e4 = ((us, None), e5) ->
     ap_GetCertAuthorities UserCA false e5 = ((uca, None), e6) ->
     ap_GetCertAuthorities HostCA false e6 = ((hca, Some e), e7) -> fails) /\
  (forall ev,
     ev ∈ calls_since w (NewCachingAuthClient w).2 ->
     Event_err ev = Some e -> fails).
Proof.
  cbv zeta.
  refine (conj _ (conj _ (conj _ (conj _ (conj _ (conj _ (conj _ _))))))).
  - unfold NewCachingAuthClient, orReturn, invoke.
    intros dn e1 ->. reflexivity.
  - unfold NewCachingAuthClient, orReturn, invoke.
    intros dn e1 nss e2 -> Hns. cbn. by rewrite Hns.
  - unfold NewCachingAuthClient, orReturn, invoke.
    intros dn e1 pre ns post e2 e3 r e4 -> Hns Hpre Hfail. cbn.
    rewrite Hns. cbn.
    match goal with |- context [loadNodes _ ∅ ?w2] =>
      destruct (loadNodes_fails_at pre ns post ∅ w2 e3 e4 r e Hpre Hfail)
        as (m' & w3 & ->) end.
    reflexivity.
  - unfold NewCachingAuthClient, orReturn, invoke.
    intros dn e1 nss e2 e3 px e4 -> Hns Hnodes Hpx. cbn.
    rewrite Hns. cbn.
    match goal with |- context [loadNodes _ ∅ ?w2] =>
      destruct (loadNodes_loaded nss ∅ w2 e3 Hnodes)
        as (m' & w3 & -> & Henv) end.
    rewrite Henv, Hpx. reflexivity.
  - unfold NewCachingAuthClient, orReturn, invoke.
    intros dn e1 nss e2 e3 px e4 us e5 -> Hns Hnodes Hpx Hus. cbn.
    rewrite Hns. cbn.
    match goal with |- context [loadNodes _ ∅ ?w2] =>
      destruct (loadNodes_loaded nss ∅ w2 e3 Hnodes)
        as (m' & w3 & -> & Henv) end.
    rewrite Henv, Hpx. cbn. rewrite Hus. reflexivity.
  - unfold NewCachingAuthClient, orReturn, invoke.
    intros dn e1 nss e2 e3 px e4 us e5 uca e6 -> Hns Hnodes Hpx Hus Huca.
    cbn. rewrite Hns. cbn.
    match goal with |- context [loadNodes _ ∅ ?w2] =>
      destruct (loadNodes_loaded nss ∅ w2 e3 Hnodes)
        as (m' & w3 & -> & Henv) end.
    rewrite Henv, Hpx. cbn. rewrite Hus. cbn. rewrite Huca. reflexivity.
  - unfold NewCachingAuthClient, orReturn, invoke.
    intros dn e1 nss e2 e3 px e4 us e5 uca e6 hca e7
      -> Hns Hnodes Hpx Hus Huca Hhca.
    cbn. rewrite Hns. cbn.
    match goal with |- context [loadNodes _ ∅ ?w2] =>
      destruct (loadNodes_loaded nss ∅ w2 e3 Hnodes)
        as (m' & w3 & -> & Henv) end.
    rewrite Henv, Hpx. cbn. rewrite Hus. cbn. rewrite Huca. cbn.
    rewrite Hhca. reflexivity.
  - intros ev Hin Hev.
    destruct (NewCachingAuthClient_traced w) as (evs & Hcalls & Hout).
    rewrite (calls_since_app _ _ _ Hcalls) in Hin.
    destruct ((NewCachingAuthClient w).1) as [[cs|] [e'|]]; try done.
    + unfold all_ok in Hout. rewrite Forall_forall in Hout.
      specialize (Hout ev Hin). congruence.
    + destruct Hout as (e0 & Hst & ->).
      by rewrite (stopped_at_failed _ _ _ _ Hst Hin Hev).
Qed.

(** The loop over the namespaces, when every [GetNodes] succeeds: one call
    per namespace, in order, each result stored under the name of its
    namespace. *)
Lemma loadNodes_ok nss (m m' : gmap string (list Server)) (w w1 : World Env) :
  loadNodes nss m w = ((m', None), w1) ->
  exists rs,
    length rs = length nss /\
    calls w1 =
      calls w ++
      zip_with (fun ns r => EvGetNodes (NamespaceName ns) r None) nss rs /\
    m' = foldl (fun acc p => <[NamespaceName p.1 := p.2]> acc) m (zip nss rs).
Proof.
  induction nss as [|ns rest IH] in m, w |- *; cbn; intros Hrun.
  - simplify_eq. exists []. by rewrite app_nil_r.
  - unfold invoke in Hrun.
    destruct (ap_GetNodes (NamespaceName ns) (env w)) as [[r [e|]] e1];
      [done|].
    apply IH in Hrun as (rs & Hlen & Hcalls & Hm). cbn in Hcalls.
    exists (r :: rs). cbn. rewrite Hlen, Hcalls, <- app_assoc. done.
Qed.

(** X8.  What a client returned by the constructor holds: the failure timestamp
    is the zero instant, every slot but [namespaces] holds the value its
    load returned, and [namespaces] is empty. *)
Lemma NewCachingAuthClient_slots (w : World Env) cs err :
  (NewCachingAuthClient w).1 = (Some cs, err) ->
  err = None /\
  exists dn nss rs px us uca hca,
    calls_since w (NewCachingAuthClient w).2 =
      [EvGetDomainName dn None; EvGetNamespaces nss None] ++
      zip_with (fun ns r => EvGetNodes (NamespaceName ns) r None) nss rs ++
      [EvGetProxies px None; EvGetUsers us None;
       EvGetCertAuthorities UserCA false uca None;
       EvGetCertAuthorities HostCA false hca None] /\
    length rs = length nss /\
    cs = mkClient 0%Z dn []
           (foldl (fun acc p => <[NamespaceName p.1 := p.2]> acc) ∅
              (zip nss rs))
           px us uca hca.
Proof.
  unfold NewCachingAuthClient, orReturn, invoke. cbn.
  destruct (ap_GetDomainName (env w)) as [[dn [e|]] e1]; cbn; [done|].
  destruct (ap_GetNamespaces e1) as [[nss [e|]] e2]; cbn; [done|].
  destruct (loadNodes nss ∅ _) as [[m [e|]] w3] eqn:Hloop; cbn; [done|].
  apply loadNodes_ok in Hloop as (rs & Hlen & Hcalls & ->). cbn in Hcalls.
  destruct (ap_GetProxies (env w3)) as [[px [e|]] e4]; cbn; [done|].
  destruct (ap_GetUsers e4) as [[us [e|]] e5]; cbn; [done|].
  destruct (ap_GetCertAuthorities UserCA false e5) as [[uca [e|]] e6]; cbn; [done|].
  destruct (ap_GetCertAuthorities HostCA false e6) as [[hca [e|]] e7]; cbn; [done|].
  cbn. intros [= <- <-]. split; cbn; [done|].
  exists dn, nss, rs, px, us, uca, hca. split; [|done].
  apply calls_since_app. cbn. rewrite Hcalls.
  rewrite <- !app_assoc. reflexivity.
Qed.

End ConstructorSpec.

(** ** The client on the scripted upstream *)

Section OnTheScriptedUpstream.

#[local] Existing Instance fake.services.
#[local] Existing Instance fake.ap.
#[local] Existing Instance fake.wallClock.

Local Open Scope Z_scope.
Local Open Scope string_scope.

(** C1.  The claim fails for [GetNodes], which returns its local variable
    and not the cached slot.  With the nodes of namespace "default"
    cached: a call five seconds after a failure is suppressed and returns
    the nil slice; a call let through whose upstream call fails returns
    what the upstream returned with its error, the nil slice.  Both leave
    the slot as it was and return a nil error. *)
Theorem GetNodes_returns_local_not_slot :
  (suppressed (fake.client (100 * Second)) (fake.worldAt (105 * Second) [])
     = true /\
   slot (CallGetNodes "default") (fake.client (100 * Second))
     = VServers ["old-node"] /\
   GetNodes "default" (fake.client (100 * Second))
       (fake.worldAt (105 * Second) [])
     = (([], None), fake.client (100 * Second),
        mkWorld (fake.mkEnv (105 * Second) []) [] [backoffWarning])) /\
  (suppressed (fake.client (100 * Second))
       (fake.worldAt (200 * Second) ["GetNodes"])
     = false /\
   ap_GetNodes "default" (fake.mkEnv (200 * Second) ["GetNodes"])
     = (([], Some "connection refused"),
        fake.mkEnv (200 * Second + 1000000) ["GetNodes"]) /\
   returned (GetNodes "default" (fake.client (100 * Second))
               (fake.worldAt (200 * Second) ["GetNodes"]))
     = ([], None) /\
   slot (CallGetNodes "default")
       (client_after (GetNodes "default" (fake.client (100 * Second))
                        (fake.worldAt (200 * Second) ["GetNodes"])))
     = VServers ["old-node"]).
Proof. vm_compute. repeat split. Qed.

(** C2.  The claim fails for the namespace list.  On an upstream every
    load of which succeeds, [GetNamespaces] returning the namespace
    "default", the constructor returns a client whose other slots hold
    what the loads returned and whose [namespaces] slot is empty. *)
Theorem NewCachingAuthClient_leaves_namespaces_empty :
  exists cs,
    (NewCachingAuthClient (fake.worldAt 0 [])).1 = (Some cs, None) /\
    calls (NewCachingAuthClient (fake.worldAt 0 [])).2 !! 1%nat
      = Some (EvGetNamespaces ["default"] None) /\
    namespaces cs = [] /\
    domainName cs = "example.com" /\
    nodes cs !! "default" = Some ["node-1"] /\
    proxies cs = ["proxy-1"] /\
    users cs = ["alice"] /\
    userCAs cs = ["user-ca"] /\
    hostCAs cs = ["host-ca"].
Proof. eexists. vm_compute. repeat split. Qed.

(** The five read methods other than [GetNodes] do return the stale slot
    inside the window. *)
Example stale_reads_inside_the_window :
  Forall
    (fun c =>
       returned (read c (fake.client (100 * Second))
                   (fake.worldAt (101 * Second) []))
       = (slot c (fake.client (100 * Second)), None))
    [CallGetDomainName; CallGetNamespaces; CallGetProxies; CallGetUsers;
     CallGetCertAuthorities UserCA false;
     CallGetCertAuthorities HostCA false].
Proof. repeat constructor. Qed.

(** A client is built on a healthy upstream and reads the domain name; the
    upstream goes down and the next read still serves the name; a read one
    second later serves it without calling the upstream; a read after the
    window has passed calls the upstream again. *)
Example outage_scenario :
  match NewCachingAuthClient (fake.worldAt (1000 * Second) []) with
  | ((Some cs0, None), w0) =>
      let r1 := GetDomainName cs0 w0 in
      let r2 :=
        GetDomainName (client_after r1)
          (fake.outage ["GetDomainName"] (world_after r1)) in
      let r3 :=
        GetDomainName (client_after r2)
          (fake.later Second (world_after r2)) in
      let r4 :=
        GetDomainName (client_after r3)
          (fake.later (10 * Second) (world_after r3)) in
      returned r1 = ("example.com", None) /\
      returned r2 = ("example.com", None) /\
      length (calls (world_after r2)) = S (length (calls (world_after r1))) /\
      returned r3 = ("example.com", None) /\
      calls (world_after r3) = calls (world_after r2) /\
      returned r4 = ("example.com", None) /\
      length (calls (world_after r4)) = S (length (calls (world_after r3)))
  | _ => False
  end.
Proof. vm_compute. repeat split. Qed.

(** The theorems above, on the scripted upstream. *)

Lemma backoff_window_witness :
  (100 * Second < 105 * Second < 100 * Second + 10 * Second /\
   calls (world_after (read CallGetUsers (fake.client (100 * Second))
                         (fake.worldAt (105 * Second) [])))
     = []) /\
  (100 * Second + 10 * Second <= 110 * Second /\
   calls (world_after (read CallGetUsers (fake.client (100 * Second))
                         (fake.worldAt (110 * Second) [])))
     = [EvGetUsers ["alice"] None]).
Proof.
  split.
  - assert (Hin : 100 * Second < 105 * Second < 100 * Second + 10 * Second)
      by (unfold Second; lia).
    split; [exact Hin|].
    exact (proj1 (proj1 (backoff_window CallGetUsers
                           (fake.client (100 * Second))
                           (fake.worldAt (105 * Second) [])) Hin)).
  - assert (Hout : 100 * Second + 10 * Second <= 110 * Second)
      by (unfold Second; lia).
    split; [exact Hout|].
    exact (proj1 (proj2 (backoff_window CallGetUsers
                           (fake.client (100 * Second))
                           (fake.worldAt (110 * Second) [])) Hout)).
Defined.

(** C4, the claim as it stands: "set to the current time (hence never
    decreases)".  The gate is open, the closure is called and fails, and
    the clock is set back by sixty seconds meanwhile: the timestamp goes
    from 100 s to 50 s. *)
Lemma try_failure_clock_counterexample :
  suppressed (fake.client (100 * Second)) (fake.worldAt (110 * Second) [])
    = false /\
  (fake.pingWhileClockSetBack (60 * Second)
     (mkSt tt (fake.client (100 * Second))
        (fake.worldAt (110 * Second) []))).1
    = Some "connection refused" /\
  lastErrorTime
    (self (try (fake.pingWhileClockSetBack (60 * Second))
             (mkSt tt (fake.client (100 * Second))
                (fake.worldAt (110 * Second) []))).2)
    = 50 * Second /\
  ~ (lastErrorTime (fake.client (100 * Second)) <=
     lastErrorTime
       (self (try (fake.pingWhileClockSetBack (60 * Second))
                (mkSt tt (fake.client (100 * Second))
                   (fake.worldAt (110 * Second) []))).2)).
Proof.
  split; [reflexivity|]. split; [reflexivity|]. split; [reflexivity|].
  vm_compute. intros Hle. apply Hle. reflexivity.
Qed.

Lemma try_failure_timestamp_witness :
  (* suppressed: the client is untouched *)
  self (try fake.ping
          (mkSt tt (fake.client (100 * Second))
             (fake.worldAt (40 * Second) []))).2
    = fake.client (100 * Second) /\
  (* called and failed: the timestamp is the clock after the call *)
  (lastErrorTime
     (self (try fake.ping
              (mkSt tt (fake.client 0)
                 (fake.worldAt (50 * Second) ["GetDomainName"]))).2)
     = 50 * Second + 1000000 /\
   0 + 10 * Second <=
     lastErrorTime
       (self (try fake.ping
                (mkSt tt (fake.client 0)
                   (fake.worldAt (50 * Second) ["GetDomainName"]))).2)) /\
  (* a read whose upstream call succeeds *)
  lastErrorTime
    (client_after (read CallGetUsers (fake.client 0)
                     (fake.worldAt (50 * Second) [])))
    = 0.
Proof.
  split; [|split].
  - refine (proj1 (proj1 (try_failure_timestamp fake.ping
                            (mkSt tt (fake.client (100 * Second))
                               (fake.worldAt (40 * Second) []))) _)).
    vm_compute. reflexivity.
  - destruct (try_failure_timestamp fake.ping
                (mkSt tt (fake.client 0)
                   (fake.worldAt (50 * Second) ["GetDomainName"])))
      as (_ & _ & Hfailed & _).
    destruct Hfailed as (Hself & _ & _ & Hmono).
    + vm_compute. discriminate.
    + discriminate.
    + split.
      * exact (f_equal lastErrorTime Hself).
      * apply Hmono. vm_compute. discriminate.
  - destruct (try_failure_timestamp fake.ping
                (mkSt tt (fake.client 0) (fake.worldAt 0 [])))
      as (_ & _ & _ & Hreads).
    apply (proj1 (Hreads CallGetUsers (fake.client 0)
                    (fake.worldAt (50 * Second) []))).
    right. split; [vm_compute; discriminate | reflexivity].
Defined.

Lemma refresh_overwrites_slot_witness :
  slot (CallGetNodes "default")
    (client_after (read (CallGetNodes "default") (fake.client 0)
                     (fake.worldAt (50 * Second) [])))
  = VServers ["node-1"].
Proof.
  refine (proj1 (refresh_overwrites_slot (CallGetNodes "default")
                   (fake.client 0) (fake.worldAt (50 * Second) [])
                   (VServers ["node-1"])
                   (fake.mkEnv (50 * Second + 1000000) []) _ _)).
  - vm_compute. discriminate.
  - reflexivity.
Defined.

Lemma NewCachingAuthClient_fails_on_any_load_witness :
  (* the users fail, the loads before them succeed *)
  (NewCachingAuthClient (fake.worldAt 0 ["GetUsers"])).1
    = (None, Some "connection refused") /\
  (* the user CAs fail *)
  (NewCachingAuthClient (fake.worldAt 0 ["GetCertAuthorities"])).1
    = (None, Some "connection refused") /\
  (* the nodes of the one namespace fail *)
  (NewCachingAuthClient (fake.worldAt 0 ["GetNodes"])).1
    = (None, Some "connection refused").
Proof.
  split; [|split].
  - refine (proj1 (proj2 (proj2 (proj2 (proj2
              (NewCachingAuthClient_fails_on_any_load
                 (fake.worldAt 0 ["GetUsers"]) "connection refused")))))
              "example.com" (fake.mkEnv 1000000 ["GetUsers"])
              ["default"] (fake.mkEnv 2000000 ["GetUsers"])
              (fake.mkEnv 3000000 ["GetUsers"])
              ["proxy-1"] (fake.mkEnv 4000000 ["GetUsers"])
              [] (fake.mkEnv 5000000 ["GetUsers"]) _ _ _ _ _);
      try reflexivity.
    econstructor; [reflexivity | constructor].
  - refine (proj1 (proj2 (proj2 (proj2 (proj2 (proj2
              (NewCachingAuthClient_fails_on_any_load
                 (fake.worldAt 0 ["GetCertAuthorities"])
                 "connection refused"))))))
              "example.com" (fake.mkEnv 1000000 ["GetCertAuthorities"])
              ["default"] (fake.mkEnv 2000000 ["GetCertAuthorities"])
              (fake.mkEnv 3000000 ["GetCertAuthorities"])
              ["proxy-1"] (fake.mkEnv 4000000 ["GetCertAuthorities"])
              ["alice"] (fake.mkEnv 5000000 ["GetCertAuthorities"])
              [] (fake.mkEnv 6000000 ["GetCertAuthorities"]) _ _ _ _ _ _);
      try reflexivity.
    econstructor; [reflexivity | constructor].
  - refine (proj1 (proj2 (proj2
              (NewCachingAuthClient_fails_on_any_load
                 (fake.worldAt 0 ["GetNodes"]) "connection refused")))
              "example.com" (fake.mkEnv 1000000 ["GetNodes"])
              [] "default" [] (fake.mkEnv 2000000 ["GetNodes"])
              (fake.mkEnv 2000000 ["GetNodes"])
              [] (fake.mkEnv 3000000 ["GetNodes"]) _ _ _ _);
      try reflexivity.
    constructor.
Defined.

Lemma GetCertAuthorities_kinds_apart_witness :
  hostCAs (client_after (GetCertAuthorities UserCA false (fake.client 0)
                           (fake.worldAt (50 * Second) [])))
    = ["old-host-ca"] /\
  userCAs (client_after (GetCertAuthorities HostCA false (fake.client 0)
                           (fake.worldAt (50 * Second) [])))
    = ["old-user-ca"].
Proof.
  assert (Hne : UserCA <> HostCA) by discriminate.
  pose proof (GetCertAuthorities_kinds_apart false (fake.client 0)
                (fake.worldAt (50 * Second) []) Hne) as [Hu [Hh _]].
  exact (conj (proj1 Hu) (proj1 Hh)).
Defined.

Lemma GetCertAuthorities_other_kinds_witness :
  returned (GetCertAuthorities "jwt" false (fake.client 0)
              (fake.worldAt (50 * Second) []))
    = (["host-ca"], None) /\
  userCAs (client_after (GetCertAuthorities "jwt" false (fake.client 0)
                           (fake.worldAt (50 * Second) [])))
    = ["old-user-ca"].
Proof.
  assert (Hne : "jwt" <> UserCA) by discriminate.
  pose proof (GetCertAuthorities_other_kinds "jwt" false (fake.client 0)
                (fake.worldAt (50 * Second) []) Hne) as (_ & Hu & _).
  split; [reflexivity | exact Hu].
Defined.

End OnTheScriptedUpstream.

(** ** More on the read methods *)

Section ReadMethodsSpec.
Context `{Services} {Env : Type} `{!AccessPoint Env} `{!Clock Env}.

Local Open Scope Z_scope.

Ltac open_read :=
  unfold read, tagged, ap_read, ev_read, slot, slot_of, slot_value,
    GetDomainName, GetNamespaces, GetNodes, GetProxies, GetUsers,
    GetCertAuthorities, frame, try, bind, this, Now, upstream, invoke,
    assign, ret, Warnf, locals, set_locals, suppressed, returned,
    client_after, world_after, backoffWarning in *;
  cbn [vars self world env calls warnings fst snd] in *.

Lemma slot_of_value (c : ReadCall) (cs : CachingAuthClient) :
  slot_value (slot_of c) cs = slot c cs.
Proof. destruct c; cbn; try done. by destruct (decide _). Qed.

Lemma slot_value_set_lastErrorTime (i : SlotId) t (cs : CachingAuthClient) :
  slot_value i (set_lastErrorTime t cs) = slot_value i cs.
Proof. by destruct i. Qed.

(** X3.  A read method assigns no cache slot but its own.  The cache slots
    are the domain name, the namespace list, the proxies, the users, the
    entry of every namespace in the node map and the CA list of each kind;
    each of them other than the slot of the call holds after the call
    what it held before, whether the call was suppressed, failed or
    refreshed its slot.  (The failure timestamp is no cache slot: a failing
    read assigns it.) *)
Theorem read_keeps_other_slots (c : ReadCall) (i : SlotId)
    (cs : CachingAuthClient) (w : World Env) :
  i <> slot_of c ->
  slot_value i (client_after (read c cs w)) = slot_value i cs.
Proof.
  intros Hi. destruct (suppressed cs w) eqn:Hs.
  { by rewrite read_when_suppressed. }
  destruct (ap_read c (env w)) as [[v [e|]] e1] eqn:Hap.
  { erewrite read_when_failed by done. apply slot_value_set_lastErrorTime. }
  clear Hap. destruct c, i; open_read; rewrite Hs; cbn.
  all: repeat case_match; simplify_eq/=; try done.
  rewrite lookup_insert_ne; [done | congruence].
Qed.

(** X4.  A read attempted less than ten seconds after the recorded failure,
    and so also one attempted at or before it, changes nothing but the
    log: the client, the environment and the history of upstream calls are
    what they were and one warning is logged.  A read attempted later logs
    nothing. *)
Theorem suppressed_read_only_warns (c : ReadCall) (cs : CachingAuthClient)
    (w : World Env) :
  (time_Now (env w) < lastErrorTime cs + 10 * Second ->
   client_after (read c cs w) = cs /\
   world_after (read c cs w) =
     mkWorld (env w) (calls w) (warnings w ++ [backoffWarning])) /\
  (lastErrorTime cs + 10 * Second <= time_Now (env w) ->
   warnings (world_after (read c cs w)) = warnings w).
Proof.
  split.
  - intros Hlt%suppressed_true. by rewrite read_when_suppressed.
  - intros Hge%suppressed_false.
    destruct (ap_read c (env w)) as [[v [e|]] e1] eqn:Hap.
    + by erewrite read_when_failed.
    + destruct (read_when_refreshed c cs w v e1 Hge Hap) as (cs1 & -> & _).
      done.
Qed.

(** X5.  After a read the failure timestamp is what it was, unless the
    read called the upstream and the call failed: then it is the instant
    the clock shows once the call has returned, which lies ten seconds or
    more after the old timestamp when the clock did not run backwards
    during the call. *)
Theorem read_failure_timestamp (c : ReadCall) (cs : CachingAuthClient)
    (w : World Env) :
  let after := lastErrorTime (client_after (read c cs w)) in
  (time_Now (env w) < lastErrorTime cs + 10 * Second ->
   after = lastErrorTime cs) /\
  (lastErrorTime cs + 10 * Second <= time_Now (env w) ->
   (ap_read c (env w)).1.2 = None ->
   after = lastErrorTime cs) /\
  (lastErrorTime cs + 10 * Second <= time_Now (env w) ->
   (ap_read c (env w)).1.2 <> None ->
   after = time_Now (ap_read c (env w)).2 /\
   (time_Now (env w) <= time_Now (ap_read c (env w)).2 ->
    lastErrorTime cs + 10 * Second <= after)).
Proof.
  cbv zeta. split; [|split].
  - intros Hlt%suppressed_true. by rewrite read_when_suppressed.
  - intros Hge%suppressed_false Hok.
    destruct (ap_read c (env w)) as [[v [e|]] e1] eqn:Hap; [done|].
    destruct (read_when_refreshed c cs w v e1 Hge Hap) as (cs1 & -> & _ & ?).
    done.
  - intros Hge Herr.
    destruct (ap_read c (env w)) as [[v [e|]] e1] eqn:Hap; [|done].
    pose proof Hge as Hs%suppressed_false.
    erewrite read_when_failed by done. unfold client_after. cbn.
    split; [done | lia].
Qed.

(** X6.  The failure timestamp is shared by all categories.  After a read
    that called the upstream and failed, a read of any category, attempted
    in any world whose clock shows less than ten seconds past the instant
    the failed call returned, calls nothing and leaves the client as the
    failed read left it. *)
Theorem failed_read_closes_the_gate (c c' : ReadCall)
    (cs : CachingAuthClient) (w w' : World Env) :
  lastErrorTime cs + 10 * Second <= time_Now (env w) ->
  (ap_read c (env w)).1.2 <> None ->
  time_Now (env w') < time_Now (ap_read c (env w)).2 + 10 * Second ->
  let cs1 := client_after (read c cs w) in
  client_after (read c' cs1 w') = cs1 /\
  calls (world_after (read c' cs1 w')) = calls w' /\
  env (world_after (read c' cs1 w')) = env w'.
Proof.
  intros Hge%suppressed_false Herr Hlt. cbv zeta.
  destruct (ap_read c (env w)) as [[v [e|]] e1] eqn:Hap; [|done].
  erewrite (read_when_failed c) by done. unfold client_after. cbn.
  rewrite read_when_suppressed; [done|].
  apply suppressed_true. done.
Qed.

(** X7.  What a successful refresh stored is what is served afterwards:
    for the five read methods other than [GetNodes], a read that follows a
    successful read of the same call and is itself suppressed, or fails
    upstream, returns the value of that refresh and a nil error. *)
Theorem refreshed_value_is_served_later (c : ReadCall)
    (cs : CachingAuthClient) (w w' : World Env) (v : ReadValue) (e1 : Env) :
  lastErrorTime cs + 10 * Second <= time_Now (env w) ->
  ap_read c (env w) = ((v, None), e1) ->
  (forall namespace, c <> CallGetNodes namespace) ->
  let cs1 := client_after (read c cs w) in
  suppressed cs1 w' = true \/ (ap_read c (env w')).1.2 <> None ->
  returned (read c cs1 w') = (v, None).
Proof.
  intros Hge%suppressed_false Hap Hc. cbv zeta.
  destruct (read_when_refreshed c cs w v e1 Hge Hap) as (cs1 & -> & Hslot & _).
  unfold client_after. cbn. intros Hcase.
  destruct (suppressed cs1 w') eqn:Hs.
  - rewrite read_when_suppressed by done. unfold returned. cbn.
    destruct c; try by rewrite <- Hslot. by destruct (Hc namespace).
  - destruct Hcase as [|Herr]; [done|].
    destruct (ap_read c (env w')) as [[v' [e|]] e2] eqn:Hap'; [|done].
    erewrite read_when_failed by done. unfold returned. cbn.
    destruct c; try by rewrite <- Hslot. by destruct (Hc namespace).
Qed.

End ReadMethodsSpec.

(** ** More on the constructor *)

Section ConstructorMore.
Context `{Services} {Env : Type} `{!AccessPoint Env}.

(** X9.  [NewCachingAuthClient] returns either a client and a nil error,
    every load it made having succeeded, or no client and an error: then
    the load that failed is the last call it made, every call before it
    succeeded, and the error returned is the error of that load, wrapped. *)
Theorem NewCachingAuthClient_stops_at_first_failure (w : World Env) :
  match (NewCachingAuthClient w).1 with
  | (Some _, None) => all_ok (calls_since w (NewCachingAuthClient w).2)
  | (None, Some e') =>
      exists oks bad e,
        calls_since w (NewCachingAuthClient w).2 = oks ++ [bad] /\
        all_ok oks /\ Event_err bad = Some e /\ e' = Wrap e
  | _ => False
  end.
Proof.
  destruct (NewCachingAuthClient_traced w) as (evs & Hcalls & Hout).
  rewrite (calls_since_app _ _ _ Hcalls).
  destruct ((NewCachingAuthClient w).1) as [[cs|] [e'|]]; try done.
  destruct Hout as (e & (oks & bad & -> & Hoks & Hbad) & ->).
  by exists oks, bad, e.
Qed.

Lemma loadNodes_run nss (m m' : gmap string (list Server))
    (w w1 : World Env) :
  loadNodes nss m w = ((m', None), w1) ->
  exists evs,
    calls w1 = calls w ++ evs /\
    length evs = length nss /\
    dom m' = dom m ∪ list_to_set (NamespaceName <$> nss) /\
    (forall k, k ∉ NamespaceName <$> nss -> m' !! k = m !! k) /\
    (forall ns, ns ∈ nss ->
       exists r, m' !! NamespaceName ns = Some r /\
                 EvGetNodes (NamespaceName ns) r None ∈ evs).
Proof.
  induction nss as [|ns rest IH] in m, w |- *; cbn; intros Hrun.
  - simplify_eq. exists []. rewrite app_nil_r.
    repeat split; [by rewrite (right_id_L ∅ (∪)) | by intros ? ?%elem_of_nil].
  - unfold invoke in Hrun.
    destruct (ap_GetNodes (NamespaceName ns) (env w)) as [[r [e|]] e1];
      [done|].
    apply IH in Hrun as (evs & Hcalls & Hlen & Hdom & Hframe & Hin).
    cbn in Hcalls.
    exists (EvGetNodes (NamespaceName ns) r None :: evs).
    split; [by rewrite Hcalls, <- app_assoc|].
    split; [by rewrite <- Hlen|].
    split.
    { rewrite Hdom, dom_insert_L. cbn.
      by rewrite (comm_L (∪) _ (dom m)), (assoc_L (∪)). }
    split.
    + intros k Hk. apply not_elem_of_cons in Hk as [Hne Hk].
      rewrite (Hframe k Hk). by rewrite lookup_insert_ne.
    + intros ns0 Hns0.
      destruct (decide (NamespaceName ns0 ∈ NamespaceName <$> rest))
        as [Hlater | Hlast].
      * apply list_elem_of_fmap in Hlater as (ns1 & Heq & Hns1).
        destruct (Hin ns1 Hns1) as (r1 & Hr1 & Hev).
        exists r1. rewrite Heq. split; [done | by right].
      * apply elem_of_cons in Hns0 as [-> | Hns0].
        -- exists r. rewrite (Hframe _ Hlast), lookup_insert_eq.
           split; [done | by left].
        -- destruct Hlast. apply list_elem_of_fmap. by exists ns0.
Qed.

(** X10.  The loop of the constructor over the namespaces, when no
    [GetNodes] fails, makes one call per namespace; the keys of the map
    it returns are the keys it was given and the names of the namespaces;
    an entry under another name is untouched; and every namespace is
    mapped to what a call of the loop for its name returned. *)
Theorem loadNodes_fills_the_map nss (m m' : gmap string (list Server))
    (w w1 : World Env) :
  loadNodes nss m w = ((m', None), w1) ->
  length (calls_since w w1) = length nss /\
  dom m' = dom m ∪ list_to_set (NamespaceName <$> nss) /\
  (forall k, k ∉ NamespaceName <$> nss -> m' !! k = m !! k) /\
  (forall ns, ns ∈ nss ->
     exists r, m' !! NamespaceName ns = Some r /\
               EvGetNodes (NamespaceName ns) r None ∈ calls_since w w1).
Proof.
  intros (evs & Hcalls & Hrest)%loadNodes_run.
  by rewrite (calls_since_app _ _ _ Hcalls).
Qed.

End ConstructorMore.

(** ** The further theorems on the scripted upstream *)

Section MoreOnTheScriptedUpstream.

#[local] Existing Instance fake.services.
#[local] Existing Instance fake.ap.
#[local] Existing Instance fake.wallClock.

Local Open Scope Z_scope.
Local Open Scope string_scope.

Lemma read_fail_soft_witness :
  slot CallGetProxies
    (client_after (read CallGetProxies (fake.client (100 * Second))
                     (fake.worldAt (200 * Second) ["GetProxies"])))
    = VServers ["old-proxy"] /\
  (returned (read CallGetProxies (fake.client (100 * Second))
               (fake.worldAt (200 * Second) ["GetProxies"]))).1
    = VServers ["old-proxy"].
Proof.
  assert (Hfails :
    suppressed (fake.client (100 * Second))
      (fake.worldAt (200 * Second) ["GetProxies"]) = true \/
    (ap_read CallGetProxies
       (env (fake.worldAt (200 * Second) ["GetProxies"]))).1.2 <> None)
    by (right; discriminate).
  destruct (read_fail_soft CallGetProxies (fake.client (100 * Second))
              (fake.worldAt (200 * Second) ["GetProxies"]) Hfails)
    as [Hslot Hret].
  split; [exact Hslot|].
  apply Hret. discriminate.
Defined.

Lemma read_keeps_other_slots_witness :
  slot_value (SlotNodes "default")
    (client_after (read (CallGetNodes "staging") (fake.client 0)
                     (fake.worldAt (50 * Second) [])))
  = VServers ["old-node"].
Proof.
  refine (read_keeps_other_slots (CallGetNodes "staging") (SlotNodes "default")
            (fake.client 0) (fake.worldAt (50 * Second) []) _).
  discriminate.
Defined.

Lemma suppressed_read_only_warns_witness :
  (90 * Second < 100 * Second + 10 * Second /\
   client_after (read CallGetUsers (fake.client (100 * Second))
                   (fake.worldAt (90 * Second) []))
     = fake.client (100 * Second)) /\
  (100 * Second + 10 * Second <= 200 * Second /\
   warnings (world_after (read CallGetUsers (fake.client (100 * Second))
                            (fake.worldAt (200 * Second) [])))
     = []).
Proof.
  split.
  - assert (Hlt : 90 * Second < 100 * Second + 10 * Second)
      by (unfold Second; lia).
    split; [exact Hlt|].
    exact (proj1 (proj1 (suppressed_read_only_warns CallGetUsers
                           (fake.client (100 * Second))
                           (fake.worldAt (90 * Second) [])) Hlt)).
  - assert (Hge : 100 * Second + 10 * Second <= 200 * Second)
      by (unfold Second; lia).
    split; [exact Hge|].
    exact (proj2 (suppressed_read_only_warns CallGetUsers
                    (fake.client (100 * Second))
                    (fake.worldAt (200 * Second) [])) Hge).
Defined.

Lemma read_failure_timestamp_witness :
  lastErrorTime
    (client_after (read CallGetUsers (fake.client (100 * Second))
                     (fake.worldAt (200 * Second) ["GetUsers"])))
  = 200 * Second + 1000000.
Proof.
  assert (Hge : 100 * Second + 10 * Second <= 200 * Second)
    by (unfold Second; lia).
  refine (proj1 (proj2 (proj2 (read_failure_timestamp CallGetUsers
                                 (fake.client (100 * Second))
                                 (fake.worldAt (200 * Second) ["GetUsers"])))
                   Hge _)).
  discriminate.
Defined.

Lemma failed_read_closes_the_gate_witness :
  calls (world_after
           (read CallGetProxies
              (client_after (read CallGetUsers (fake.client 0)
                               (fake.worldAt (200 * Second) ["GetUsers"])))
              (fake.worldAt (205 * Second) [])))
  = [].
Proof.
  refine (proj1 (proj2 (failed_read_closes_the_gate CallGetUsers
                          CallGetProxies (fake.client 0)
                          (fake.worldAt (200 * Second) ["GetUsers"])
                          (fake.worldAt (205 * Second) []) _ _ _))).
  - vm_compute. discriminate.
  - discriminate.
  - reflexivity.
Defined.

Lemma refreshed_value_is_served_later_witness :
  returned
    (read CallGetDomainName
       (client_after (read CallGetDomainName (fake.client 0)
                        (fake.worldAt (50 * Second) [])))
       (fake.worldAt (60 * Second) ["GetDomainName"]))
  = (VDomainName "example.com", None).
Proof.
  refine (refreshed_value_is_served_later CallGetDomainName (fake.client 0)
            (fake.worldAt (50 * Second) [])
            (fake.worldAt (60 * Second) ["GetDomainName"])
            (VDomainName "example.com")
            (fake.mkEnv (50 * Second + 1000000) []) _ _ _ _).
  - vm_compute. discriminate.
  - reflexivity.
  - discriminate.
  - right. discriminate.
Defined.

Lemma NewCachingAuthClient_slots_witness :
  (NewCachingAuthClient (fake.worldAt 0 [])).1
    = (Some (@mkClient fake.services 0 "example.com" []
               {[ "default" := ["node-1"] ]} ["proxy-1"] ["alice"]
               ["user-ca"] ["host-ca"]),
       None) /\
  exists dn nss rs px us uca hca,
    length rs = length nss /\
    @mkClient fake.services 0 "example.com" []
      {[ "default" := ["node-1"] ]} ["proxy-1"] ["alice"]
      ["user-ca"] ["host-ca"]
    = mkClient 0 dn []
        (foldl (fun acc p => <[NamespaceName p.1 := p.2]> acc) ∅
           (zip nss rs))
        px us uca hca.
Proof.
  assert (Hrun :
    (NewCachingAuthClient (fake.worldAt 0 [])).1
    = (Some (@mkClient fake.services 0 "example.com" []
               {[ "default" := ["node-1"] ]} ["proxy-1"] ["alice"]
               ["user-ca"] ["host-ca"]),
       None))
    by (vm_compute; reflexivity).
  split; [exact Hrun|].
  destruct (NewCachingAuthClient_slots _ _ _ Hrun)
    as (_ & dn & nss & rs & px & us & uca & hca & _ & Hlen & Hcs).
  exists dn, nss, rs, px, us, uca, hca. exact (conj Hlen Hcs).
Defined.

Lemma loadNodes_fills_the_map_witness :
  dom (<["staging" := ["node-1"]]>
         (<["default" := ["node-1"]]> (∅ : gmap string (list string))))
  = ∅ ∪ list_to_set ["default"; "staging"].
Proof.
  refine (proj1 (proj2 (loadNodes_fills_the_map ["default"; "staging"] ∅
                          (<["staging" := ["node-1"]]>
                             (<["default" := ["node-1"]]> ∅))
                          (fake.worldAt 0 [])
                          (mkWorld (fake.mkEnv 2000000 [])
                             [EvGetNodes "default" ["node-1"] None;
                              EvGetNodes "staging" ["node-1"] None] [])
                          _))).
  reflexivity.
Defined.

End MoreOnTheScriptedUpstream.

(** * Properties of the inventory formatter *)

Import ansible.

Section InventorySpec.

Local Open Scope string_scope.

(** [strings.Split] returns at least one piece, so indexing its result at
    0 does not panic. *)
Lemma Split_first (s : string) (sep : ascii) :
  exists piece pieces, Split s sep = piece :: pieces.
Proof.
  induction s as [|c rest (piece & pieces & IH)]; cbn.
  - by eexists _, _.
  - destruct (Ascii.eqb c sep); [by eexists _, _|].
    rewrite IH. by eexists _, _.
Qed.

(** An address without a colon is returned whole, and a port after the
    first colon is cut off with it. *)
Lemma trimTrailingPort_cons (c : ascii) (rest : string) :
  Ascii.eqb c ":" = false ->
  trimTrailingPort (String c rest) = String c (trimTrailingPort rest).
Proof.
  intros Hc. unfold trimTrailingPort. cbn [Split]. rewrite Hc.
  destruct (Split_first rest ":") as (piece & pieces & ->). reflexivity.
Qed.

Lemma trimTrailingPort_host (host : string) :
  mentions ":" host = false -> trimTrailingPort host = host.
Proof.
  induction host as [|c rest IH]; [done|]. cbn [mentions].
  intros [Hc Hrest]%orb_false_iff.
  by rewrite trimTrailingPort_cons, IH.
Qed.

Lemma trimTrailingPort_port (host port : string) :
  mentions ":" host = false ->
  trimTrailingPort (host ++ ":" ++ port) = host.
Proof.
  induction host as [|c rest IH]; [done|]. cbn [mentions].
  intros [Hc Hrest]%orb_false_iff.
  change (String c rest ++ ":" ++ port)
    with (String c (rest ++ ":" ++ port)).
  by rewrite trimTrailingPort_cons, IH.
Qed.

(** Two labels of one node can be added in either order. *)
Lemma addLabel_comm (n : Server) (labelBuffer : gmap string (list string))
    (entry1 entry2 : string * string) :
  addLabel n (addLabel n labelBuffer entry1) entry2 =
  addLabel n (addLabel n labelBuffer entry2) entry1.
Proof.
  destruct entry1 as [label1 val1], entry2 as [label2 val2].
  unfold addLabel.
  destruct (decide (label1 ++ "-" ++ val1 = label2 ++ "-" ++ val2))
    as [-> | Hne]; [done|].
  rewrite !lookup_insert_ne by done.
  by apply insert_insert_ne.
Qed.

Lemma foldl_comm_perm {A B} (f : B -> A -> B) (l1 l2 : list A) :
  (forall b x y, f (f b x) y = f (f b y) x) ->
  l1 ≡ₚ l2 -> forall b, foldl f b l1 = foldl f b l2.
Proof.
  intros Hcomm. induction 1 as [|x l1 l2 _ IH|x y l|l1 l2 l3 _ IH1 _ IH2];
    intros b; cbn.
  - done.
  - apply IH.
  - by rewrite Hcomm.
  - by rewrite IH1.
Qed.

(** The order in which Go ranges over the labels of a node does not show
    in the groups. *)
Lemma addNode_order (n : Server) (labels : list (string * string))
    (labelBuffer : gmap string (list string)) :
  labels ≡ₚ map_to_list (GetAllLabels n) ->
  addNode n labels labelBuffer =
  addNode n (map_to_list (GetAllLabels n)) labelBuffer.
Proof.
  intros Hperm. unfold addNode.
  apply foldl_comm_perm; [apply addLabel_comm | done].
Qed.

(** X16.  Whatever the order in which the labels of each node are ranged
    over, a different one for every node if need be, the groups are those
    of [bufferLabels]. *)
Lemma bufferLabels_order (nodes : list Server)
    (orders : list (list (string * string))) :
  Forall2 (fun n labels => labels ≡ₚ map_to_list (GetAllLabels n))
    nodes orders ->
  foldl (fun labelBuffer p => addNode p.1 p.2 labelBuffer) ∅
    (zip nodes orders)
  = bufferLabels nodes.
Proof.
  unfold bufferLabels. generalize (∅ : gmap string (list string)).
  intros acc Hall.
  induction Hall as [|n labels nodes orders Hp _ IH] in acc |- *; [done|].
  cbn [zip_with foldl fst snd].
  rewrite (addNode_order _ _ _ Hp). apply IH.
Qed.

(** The inventory has one group per entry, with the hosts of the entry
    and no variables, in whatever order the entries are ranged over. *)
Lemma inventoryOf_snoc (l : list (string * list string)) k hosts :
  inventoryOf (l ++ [(k, hosts)]) = <[k := mkGroup hosts ∅]> (inventoryOf l).
Proof. unfold inventoryOf. by rewrite foldl_app. Qed.

Lemma inventoryOf_list_to_map (l : list (string * list string)) :
  NoDup l.*1 ->
  inventoryOf l =
  (fun hosts => mkGroup hosts ∅) <$> (list_to_map l : gmap string (list string)).
Proof.
  induction l as [|[k hosts] l IH] using rev_ind; intros Hnd; [done|].
  rewrite fmap_app in Hnd. apply NoDup_app in Hnd as (Hl & Hk & _).
  rewrite inventoryOf_snoc, IH by done.
  rewrite list_to_map_snoc, fmap_insert; [done|].
  intros Hin. apply (Hk k Hin). cbn. left.
Qed.

(** X17.  In whatever order the groups are ranged over, the inventory has
    one group for each of them, with its hosts and an empty map of
    variables. *)
Lemma inventoryOf_range (hostsByLabels : gmap string (list string))
    (l : list (string * list string)) :
  l ≡ₚ map_to_list hostsByLabels ->
  inventoryOf l = (fun hosts => mkGroup hosts ∅) <$> hostsByLabels.
Proof.
  intros Hperm.
  assert (Hnd : NoDup l.*1).
  { rewrite Hperm. apply NoDup_fst_map_to_list. }
  rewrite inventoryOf_list_to_map by done.
  f_equal. rewrite (list_to_map_proper _ _ Hnd Hperm).
  apply list_to_map_to_list.
Qed.

(** C9.  The three servers of the fixture are grouped into exactly
    os-gentoo, os-coreos, os-plan9 and role-database, the hosts of a group
    in the order of the input; the groups are the same when every address
    carries a port; and the inventory made of them has these groups, each
    with its hosts and no variables. *)
Theorem bufferLabels_fixture :
  bufferLabels serverFixture = fixtureGroups /\
  (forall port1 port2 port3 : string,
     bufferLabels (serverFixtureOn port1 port2 port3) = fixtureGroups) /\
  map_to_list fixtureGroups ≡ₚ
    [("os-gentoo", ["198.145.29.83"]); ("os-coreos", ["11.1.1.1"]);
     ("os-plan9", ["8.8.4.4"]);
     ("role-database", ["11.1.1.1"; "8.8.4.4"])] /\
  inventoryOf (map_to_list (bufferLabels serverFixture)) =
    {[ "os-gentoo" := mkGroup ["198.145.29.83"] ∅;
       "os-coreos" := mkGroup ["11.1.1.1"] ∅;
       "os-plan9" := mkGroup ["8.8.4.4"] ∅;
       "role-database" := mkGroup ["11.1.1.1"; "8.8.4.4"] ∅ ]}.
Proof.
  split; [|split; [|split]].
  - vm_compute. reflexivity.
  - intros port1 port2 port3. vm_compute. reflexivity.
  - vm_compute. reflexivity.
  - vm_compute. reflexivity.
Qed.

End InventorySpec.

(** * More on the inventory formatter *)

Section InventoryMore.

Local Open Scope string_scope.

Lemma trimTrailingPort_colon (rest : string) :
  trimTrailingPort (String ":" rest) = "".
Proof. reflexivity. Qed.

Lemma mentions_app (sep : ascii) (s t : string) :
  mentions sep (s ++ t) = mentions sep s || mentions sep t.
Proof.
  induction s as [|c s IH]; [done|].
  change (String c s ++ t) with (String c (s ++ t)).
  cbn [mentions]. by rewrite IH, orb_assoc.
Qed.

(** X11.  Whatever the address, [trimTrailingPort] returns its longest
    prefix without a colon: the result holds no colon, and the address is
    either the result itself or the result, a colon, and a remainder.  An
    address with several colons is cut at the first; trimming twice is
    trimming once. *)
Theorem trimTrailingPort_cuts_at_first_colon (nodeAddr : string) :
  mentions ":" (trimTrailingPort nodeAddr) = false /\
  (nodeAddr = trimTrailingPort nodeAddr \/
   exists rest, nodeAddr = trimTrailingPort nodeAddr ++ ":" ++ rest) /\
  trimTrailingPort (trimTrailingPort nodeAddr) = trimTrailingPort nodeAddr.
Proof.
  assert (Hfree : mentions ":" (trimTrailingPort nodeAddr) = false).
  { induction nodeAddr as [|c rest IH]; [done|].
    destruct (Ascii.eqb c ":") eqn:Hc.
    - apply Ascii.eqb_eq in Hc as ->. by rewrite trimTrailingPort_colon.
    - rewrite trimTrailingPort_cons by done. cbn [mentions].
      by rewrite Hc, IH. }
  split; [done|]. split; [|by apply trimTrailingPort_host].
  clear Hfree. induction nodeAddr as [|c rest IH]; [by left|].
  destruct (Ascii.eqb c ":") eqn:Hc.
  - apply Ascii.eqb_eq in Hc as ->. right. by exists rest.
  - rewrite trimTrailingPort_cons by done.
    destruct IH as [IH | [tail IH]].
    + left. by rewrite <- IH.
    + right. exists tail.
      change (String c (trimTrailingPort rest) ++ ":" ++ tail)
        with (String c (trimTrailingPort rest ++ ":" ++ tail)).
      by rewrite <- IH.
Qed.

(** X12.  A host name without a colon comes back whole, and also when a
    port, or anything else, follows it after a colon. *)
Theorem trimTrailingPort_strips_port (host : string) :
  mentions ":" host = false ->
  trimTrailingPort host = host /\
  forall port, trimTrailingPort (host ++ ":" ++ port) = host.
Proof.
  intros Hhost. split; [by apply trimTrailingPort_host|].
  intros port. by apply trimTrailingPort_port.
Qed.

(** The hosts of a group after one more label of node [n]. *)
Lemma addLabel_lookup (n : Server) (labelBuffer : gmap string (list string))
    (entry : string * string) (groupName : string) :
  default [] (addLabel n labelBuffer entry !! groupName) =
  (default [] (labelBuffer !! groupName) ++
   if decide ((entry.1 ++ "-" ++ entry.2)%string = groupName)
   then [trimTrailingPort (GetAddr n)] else [])%list.
Proof.
  destruct entry as [label val]. unfold addLabel. cbn [fst snd].
  destruct (decide (label ++ "-" ++ val = groupName)) as [<- | Hne].
  - by rewrite lookup_insert_eq.
  - by rewrite lookup_insert_ne, app_nil_r.
Qed.

Lemma addNode_lookup (n : Server) (labels : list (string * string))
    (labelBuffer : gmap string (list string)) (groupName : string) :
  default [] (addNode n labels labelBuffer !! groupName) =
  (default [] (labelBuffer !! groupName) ++
   replicate
     (length (filter
                (fun entry => (entry.1 ++ "-" ++ entry.2)%string = groupName)
                labels))
     (trimTrailingPort (GetAddr n)))%list.
Proof.
  unfold addNode.
  induction labels as [|entry labels IH] in labelBuffer |- *; cbn [foldl].
  - by rewrite app_nil_r.
  - rewrite IH, addLabel_lookup, filter_cons.
    destruct (decide (entry.1 ++ "-" ++ entry.2 = groupName)).
    + by rewrite <- app_assoc.
    + by rewrite app_nil_r.
Qed.

Lemma bufferLabels_lookup_from (nodes : list Server)
    (labelBuffer : gmap string (list string)) (groupName : string) :
  default []
    (foldl (fun labelBuffer n =>
              addNode n (map_to_list (GetAllLabels n)) labelBuffer)
       labelBuffer nodes !! groupName) =
  (default [] (labelBuffer !! groupName) ++ (nodes ≫= hostsOf groupName))%list.
Proof.
  induction nodes as [|n nodes IH] in labelBuffer |- *; cbn [foldl].
  - by rewrite app_nil_r.
  - rewrite IH, addNode_lookup, bind_cons, <- app_assoc. done.
Qed.

(** No group of the buffer is ever empty. *)
Lemma addNode_nonempty (n : Server) (labels : list (string * string))
    (labelBuffer : gmap string (list string)) :
  map_Forall (fun _ hosts => hosts <> []) labelBuffer ->
  map_Forall (fun _ hosts => hosts <> []) (addNode n labels labelBuffer).
Proof.
  unfold addNode.
  induction labels as [|[label val] labels IH] in labelBuffer |- *;
    cbn [foldl]; [done|].
  intros Hall. apply IH. unfold addLabel.
  apply map_Forall_insert_2; [|done].
  by destruct (default [] (labelBuffer !! _)).
Qed.

Lemma bufferLabels_nonempty (nodes : list Server) :
  map_Forall (fun _ hosts => hosts <> []) (bufferLabels nodes).
Proof.
  unfold bufferLabels.
  assert (Hempty : map_Forall
                     (fun (_ : string) (hosts : list string) => hosts <> [])
                     (∅ : gmap string (list string)))
    by (intros k hosts Hk; rewrite lookup_empty in Hk; discriminate).
  revert Hempty. generalize (∅ : gmap string (list string)).
  induction nodes as [|n nodes IH]; intros acc Hacc; cbn [foldl]; [done|].
  apply IH. by apply addNode_nonempty.
Qed.

(** X13.  The hosts of a group are, in the order of the input, the
    addresses without port of the nodes, each once for every label of the
    node whose name and value join with a dash to the name of the group;
    the buffer has no entry for a name no label joins to. *)
Theorem bufferLabels_groups (nodes : list Server) (groupName : string) :
  default [] (bufferLabels nodes !! groupName) = nodes ≫= hostsOf groupName /\
  (bufferLabels nodes !! groupName = None <->
   nodes ≫= hostsOf groupName = []).
Proof.
  assert (Hhosts :
    default [] (bufferLabels nodes !! groupName) = nodes ≫= hostsOf groupName).
  { unfold bufferLabels. by rewrite bufferLabels_lookup_from, lookup_empty. }
  split; [done|]. rewrite <- Hhosts.
  destruct (bufferLabels nodes !! groupName) as [hosts|] eqn:Hg; cbn.
  - split; [done|]. intros ->.
    by destruct (bufferLabels_nonempty nodes groupName [] Hg).
  - done.
Qed.

(** X14.  Every group of the buffer has a host; each of its hosts is the
    address without port of a node of the input and holds no colon; and
    the name of the group holds a dash. *)
Theorem bufferLabels_group_shape (nodes : list Server) (groupName : string)
    (hosts : list string) :
  bufferLabels nodes !! groupName = Some hosts ->
  hosts <> [] /\
  Forall (fun host =>
            mentions ":" host = false /\
            exists n, n ∈ nodes /\ host = trimTrailingPort (GetAddr n))
    hosts /\
  mentions "-" groupName = true.
Proof.
  intros Hg.
  assert (Hne : hosts <> []) by exact (bufferLabels_nonempty nodes _ _ Hg).
  assert (Hhosts : hosts = nodes ≫= hostsOf groupName).
  { unfold bufferLabels in Hg.
    pose proof (bufferLabels_lookup_from nodes ∅ groupName) as Heq.
    by rewrite Hg, lookup_empty in Heq. }
  split; [done|]. split.
  - apply Forall_forall. intros host Hin. rewrite Hhosts in Hin.
    apply list_elem_of_bind in Hin as (n & Hin & Hn).
    apply elem_of_replicate_inv in Hin as ->. split.
    + induction (GetAddr n) as [|c rest IH]; [done|].
      destruct (Ascii.eqb c ":") eqn:Hc.
      * apply Ascii.eqb_eq in Hc as ->. by rewrite trimTrailingPort_colon.
      * rewrite trimTrailingPort_cons by done. cbn [mentions].
        by rewrite Hc, IH.
    + by exists n.
  - destruct hosts as [|host hosts]; [done|].
    assert (Hin : host ∈ nodes ≫= hostsOf groupName)
      by (rewrite <- Hhosts; left).
    apply list_elem_of_bind in Hin as (n & Hin & _).
    apply elem_of_replicate in Hin as [_ Hcount].
    destruct (filter _ (map_to_list (GetAllLabels n)))
      as [|[label val] others] eqn:Hfilter; [done|].
    assert (Hentry : (label, val) ∈
              filter (fun entry => entry.1 ++ "-" ++ entry.2 = groupName)
                (map_to_list (GetAllLabels n)))
      by (rewrite Hfilter; left).
    apply list_elem_of_filter in Hentry as [<- _]. cbn [fst snd].
    rewrite mentions_app.
    change ("-" ++ val) with (String "-" val). cbn [mentions].
    by rewrite orb_true_r.
Qed.

(** X15.  Grouping two lists of nodes one after the other: a group of the
    whole is the group of the first list followed by the group of the
    second. *)
Theorem bufferLabels_app (nodes1 nodes2 : list Server) (groupName : string) :
  default [] (bufferLabels (nodes1 ++ nodes2) !! groupName) =
  (default [] (bufferLabels nodes1 !! groupName) ++
   default [] (bufferLabels nodes2 !! groupName))%list.
Proof.
  unfold bufferLabels.
  rewrite !bufferLabels_lookup_from, lookup_empty. cbn.
  apply bind_app.
Qed.

(** A dash inside a label or a value can make two labels of one node name
    the same group, which then lists the node twice. *)
Example bufferLabels_ambiguous_dash :
  bufferLabels [mkServer "10.0.0.1:3022" {[ "a" := "b-c"; "a-b" := "c" ]}]
  = {[ "a-b-c" := ["10.0.0.1"; "10.0.0.1"] ]}.
Proof. vm_compute. reflexivity. Qed.

Lemma inventoryOf_fmap (hostsByLabels : gmap string (list string)) :
  inventoryOf (map_to_list hostsByLabels) =
  (fun hosts => mkGroup hosts ∅) <$> hostsByLabels.
Proof.
  rewrite inventoryOf_list_to_map by apply NoDup_fst_map_to_list.
  by rewrite list_to_map_to_list.
Qed.

(** X18.  [DynamicInventoryList] hands [json.Marshal] one group per group
    of [bufferLabels], with the hosts of that group and no variables.  If
    the encoding fails it returns the empty string and an error whose
    message is the one of the encoder after a fixed prefix; otherwise it
    returns the encoding followed by a newline, and a nil error. *)
Theorem DynamicInventoryList_result
    (Marshal : gmap string Group -> string * option string)
    (nodes : list Server) :
  DynamicInventoryList Marshal nodes =
    match Marshal ((fun hosts => mkGroup hosts ∅) <$> bufferLabels nodes) with
    | (_, Some e) => ("", Some ("cannot encode JSON objet: " ++ e))
    | (out, None) => (out ++ String "010" "", None)
    end.
Proof.
  unfold DynamicInventoryList. rewrite inventoryOf_fmap.
  by destruct (Marshal _) as [out [e|]].
Qed.

(** The lines written for a list of groups: one per group and one per
    host. *)
Lemma length_printGroups (inventory : list (string * list string)) :
  length (printGroups inventory) =
  length inventory + sum_list_with (fun p => length p.2) inventory.
Proof.
  unfold printGroups.
  induction inventory as [|[groupName nodeIPs] inventory IH]; [done|].
  rewrite bind_cons, length_app, IH. cbn. lia.
Qed.

(** Every label added puts one more host in the buffer. *)
Lemma addLabel_hosts (n : Server) (labelBuffer : gmap string (list string))
    (entry : string * string) :
  sum_list_with (fun p => length p.2) (map_to_list (addLabel n labelBuffer entry))
  = S (sum_list_with (fun p => length p.2) (map_to_list labelBuffer)).
Proof.
  destruct entry as [label val]. unfold addLabel.
  set (groupName := label ++ "-" ++ val).
  destruct (labelBuffer !! groupName) as [hosts|] eqn:Hg; cbn [default].
  - rewrite <- insert_delete_eq.
    rewrite <- (insert_delete_id labelBuffer groupName hosts Hg) at 2.
    rewrite !map_to_list_insert by apply lookup_delete_eq.
    cbn. rewrite length_app. cbn. lia.
  - rewrite map_to_list_insert by done. done.
Qed.

Lemma addNode_hosts (n : Server) (labels : list (string * string))
    (labelBuffer : gmap string (list string)) :
  sum_list_with (fun p => length p.2)
    (map_to_list (addNode n labels labelBuffer))
  = sum_list_with (fun p => length p.2) (map_to_list labelBuffer)
    + length labels.
Proof.
  unfold addNode.
  induction labels as [|entry labels IH] in labelBuffer |- *; cbn [foldl].
  - cbn. lia.
  - rewrite IH, addLabel_hosts. cbn. lia.
Qed.

Lemma bufferLabels_hosts (nodes : list Server) :
  sum_list_with (fun p => length p.2) (map_to_list (bufferLabels nodes))
  = sum_list_with (fun n => size (GetAllLabels n)) nodes.
Proof.
  unfold bufferLabels.
  transitivity
    (sum_list_with (fun p : string * list string => length p.2)
       (map_to_list (∅ : gmap string (list string)))
     + sum_list_with (fun n => size (GetAllLabels n)) nodes).
  2: { by rewrite map_to_list_empty. }
  generalize (∅ : gmap string (list string)).
  induction nodes as [|n nodes IH]; intros acc; cbn [foldl].
  - cbn. lia.
  - rewrite IH, addNode_hosts, length_map_to_list. cbn. lia.
Qed.

(** X19.  In whatever order Go ranges over the groups, [StaticInventory]
    writes one line per group and one line per label of every node: the
    lines written are those of the order of [map_to_list] rearranged, and
    their number is the number of groups plus the number of labels of all
    the nodes. *)
Theorem StaticInventory_lines (nodes : list Server)
    (inventory : list (string * list string)) :
  inventory ≡ₚ map_to_list (bufferLabels nodes) ->
  printGroups inventory ≡ₚ StaticInventory nodes /\
  length (printGroups inventory) =
    size (bufferLabels nodes)
    + sum_list_with (fun n => size (GetAllLabels n)) nodes.
Proof.
  intros Hperm. split.
  - unfold StaticInventory, printGroups. by rewrite Hperm.
  - rewrite length_printGroups, Hperm, bufferLabels_hosts.
    by rewrite length_map_to_list.
Qed.

Lemma trimTrailingPort_strips_port_witness :
  trimTrailingPort "node-7.example.com:3022" = "node-7.example.com".
Proof.
  refine (proj2 (trimTrailingPort_strips_port "node-7.example.com" _) "3022").
  reflexivity.
Defined.

Lemma bufferLabels_group_shape_witness :
  mentions "-" "role-database" = true.
Proof.
  refine (proj2 (proj2 (bufferLabels_group_shape serverFixture
                          "role-database" ["11.1.1.1"; "8.8.4.4"] _))).
  vm_compute. reflexivity.
Defined.

Lemma bufferLabels_order_witness :
  foldl (fun labelBuffer p => addNode p.1 p.2 labelBuffer) ∅
    (zip serverFixture
       [[("os", "gentoo")];
        [("role", "database"); ("os", "coreos")];
        [("os", "plan9"); ("role", "database")]])
  = bufferLabels serverFixture.
Proof.
  apply bufferLabels_order.
  constructor; [|constructor; [|constructor; [|constructor]]].
  all: vm_compute; first [reflexivity | apply perm_swap].
Defined.

Lemma inventoryOf_range_witness :
  inventoryOf
    [("role-database", ["11.1.1.1"; "8.8.4.4"]); ("os-plan9", ["8.8.4.4"]);
     ("os-coreos", ["11.1.1.1"]); ("os-gentoo", ["198.145.29.83"])]
  = (fun hosts => mkGroup hosts ∅) <$> fixtureGroups.
Proof.
  apply inventoryOf_range. vm_compute.
  exact (reverse_Permutation
           [("os-gentoo", ["198.145.29.83"]); ("os-coreos", ["11.1.1.1"]);
            ("os-plan9", ["8.8.4.4"]);
            ("role-database", ["11.1.1.1"; "8.8.4.4"])]).
Defined.

Lemma StaticInventory_lines_witness :
  length
    (printGroups
       [("role-database", ["11.1.1.1"; "8.8.4.4"]); ("os-plan9", ["8.8.4.4"]);
        ("os-coreos", ["11.1.1.1"]); ("os-gentoo", ["198.145.29.83"])])
  = 9%nat.
Proof.
  refine (proj2 (StaticInventory_lines serverFixture
                   [("role-database", ["11.1.1.1"; "8.8.4.4"]);
                    ("os-plan9", ["8.8.4.4"]);
                    ("os-coreos", ["11.1.1.1"]);
                    ("os-gentoo", ["198.145.29.83"])] _)).
  vm_compute.
  exact (reverse_Permutation
           [("os-gentoo", ["198.145.29.83"]); ("os-coreos", ["11.1.1.1"]);
            ("os-plan9", ["8.8.4.4"]);
            ("role-database", ["11.1.1.1"; "8.8.4.4"])]).
Defined.

End InventoryMore.
